(** * Signal-Σ core: a shallow embedding of the reactive containers

    This development models the reactive core of the repository:
    - [src/core/signal.ts]   (container: value, map, subscribe, _set)
    - [src/core/effect.ts]   (Effect: bind, pureEffect, sequence; the file
                              is found concatenated in src/react/adapter.ts)
    - [src/plugins/index.ts] (filterPlugin)
    - [src/algebras/time.ts] (timeout)
    - [src/algebras/fetch.ts] (fetch, retry, cache)
    - the [fsm] of the state algebra.

    Subscriber closures are defunctionalised: a subscriber is a first-order
    [listener] value describing which closure of the source it is, and the
    interpreter [go] runs it.  Synchronous notification chains are run with
    fuel ([None] = out of fuel). *)

From Stdlib Require Import ZArith Lia Ascii.
From stdpp Require Import base list strings pretty.

Open Scope Z_scope.

(** ** JavaScript values

    Numbers are modelled by their integer values plus [NaN]; objects and
    arrays are references into a heap.  [strict_eqb] is [===]. *)

Inductive val : Type :=
| VUndef
| VNull
| VBool (b : bool)
| VNum (n : Z)
| VNaN
| VStr (s : string)
| VRef (loc : nat).

Definition strict_eqb (x y : val) : bool :=
  match x, y with
  | VUndef, VUndef => true
  | VNull, VNull => true
  | VBool a, VBool b => Bool.eqb a b
  | VNum a, VNum b => Z.eqb a b
  | VStr a, VStr b => String.eqb a b
  | VRef a, VRef b => Nat.eqb a b
  | _, _ => false
  end.

(** ** Closures of the source, defunctionalised *)

(** The function passed to [map]. *)
Inductive mfun : Type :=
| MId                                   (** [id] *)
| MFun (g : val -> val)                 (** a pure function on values *)
| MSnoc (arr : val)                     (** [val => [...arr, val]] (sequence) *)
| MFilter (p : val -> bool) (src : nat).
  (** [value => predicate(value) ? value : signal.value()] (filterPlugin) *)

(** The function passed to [bind]. *)
Inductive bfun : Type :=
| BPure (g : val -> val)                (** [x => effect(g(x))] *)
| BConst (e : nat)                      (** [_ => e], an existing effect *)
| BSeq (curr : nat).                    (** [arr => curr.map(val => [...arr, val])] *)

(** The subscribers a container can hold. *)
Inductive listener : Type :=
| LUser (k : nat)                       (** an outside subscriber, logged *)
| LMap (m : mfun) (d : nat)             (** [newValue => derived._set(f(newValue))] *)
| LBind (b : bfun) (d : nat)
  (** [newValue => { newEffect = f(newValue); resultEffect._set(newEffect.value());
                     newEffect.subscribe(...) }] *)
| LInner (d : nat).                     (** [boundValue => resultEffect._set(boundValue)] *)

Definition ldst (l : listener) : option nat :=
  match l with
  | LUser _ => None
  | LMap _ d | LBind _ d | LInner d => Some d
  end.

(** A container: [current] and its [subscribers] (a JS [Set], in insertion
    order; no path of the modelled code removes a subscriber). *)
Record cell : Type := mkcell { cur : val; subs : list listener }.

Record store : Type := mkstore {
  cells : list cell;                    (** containers, by id *)
  heap : list (list val);               (** arrays, by reference *)
  changes : list (nat * val);           (** every stored change (newest first) *)
  notes : list (nat * val)              (** every call of an outside subscriber *)
}.

Definition empty_store : store := mkstore [] [] [] [].

Definition value (i : nat) (st : store) : val :=
  match cells st !! i with Some c => cur c | None => VUndef end.

Definition subs_of (st : store) (i : nat) : list listener :=
  match cells st !! i with Some c => subs c | None => [] end.

Definition set_cells (st : store) (cs : list cell) : store :=
  mkstore cs (heap st) (changes st) (notes st).

(** [signal(initial)] / [effect(initial)]: a fresh container. *)
Definition signal (v : val) (st : store) : nat * store :=
  (length (cells st), set_cells st (cells st ++ [mkcell v []])).

Definition effect := signal.
Definition pureEffect := signal.

(** [subscribe(fn)]: [subscribers.add(fn)]. *)
Definition subscribe (i : nat) (l : listener) (st : store) : store :=
  match cells st !! i with
  | Some c => set_cells st (<[i := mkcell (cur c) (subs c ++ [l])]> (cells st))
  | None => st
  end.

(** [current = value], recorded in the change log. *)
Definition store_cur (i : nat) (v : val) (st : store) : store :=
  match cells st !! i with
  | Some c => mkstore (<[i := mkcell v (subs c)]> (cells st)) (heap st)
                ((i, v) :: changes st) (notes st)
  | None => st
  end.

Definition add_note (k : nat) (v : val) (st : store) : store :=
  mkstore (cells st) (heap st) (changes st) ((k, v) :: notes st).

(** A fresh array literal. *)
Definition alloc_array (xs : list val) (st : store) : val * store :=
  (VRef (length (heap st)),
   mkstore (cells st) (heap st ++ [xs]) (changes st) (notes st)).

Definition arr_elems (v : val) (st : store) : list val :=
  match v with
  | VRef l => default [] (heap st !! l)
  | _ => []
  end.

Definition apply_mfun (m : mfun) (v : val) (st : store) : val * store :=
  match m with
  | MId => (v, st)
  | MFun g => (g v, st)
  | MSnoc arr => alloc_array (arr_elems arr st ++ [v]) st
  | MFilter p src => (if p v then v else value src st, st)
  end.

(** [map(f)]: [derived = signal(f(current))]; subscribe the mapping closure. *)
Definition map_ (c : nat) (m : mfun) (st : store) : nat * store :=
  let '(v0, st1) := apply_mfun m (value c st) st in
  let '(d, st2) := signal v0 st1 in
  (d, subscribe c (LMap m d) st2).

Definition eval_bfun (b : bfun) (v : val) (st : store) : nat * store :=
  match b with
  | BPure g => effect (g v) st
  | BConst e => (e, st)
  | BSeq curr => map_ curr (MSnoc v) st
  end.

(** The synchronous interpreter:
    - [OSet i v]: [_set(v)] on container [i]: [if (value !== current) {current = value; notify()}];
    - [ONotify i k]: [subscribers.forEach(fn => fn(current))] from position [k];
      the set is re-read at every step, so subscribers added meanwhile are visited;
    - [ORun l v]: run subscriber [l] on [v]. *)
Inductive op : Type :=
| OSet (i : nat) (v : val)
| ONotify (i k : nat)
| ORun (l : listener) (v : val).

Fixpoint go (fuel : nat) (o : op) (st : store) {struct fuel} : option store :=
  match fuel with
  | O => None
  | S f =>
    match o with
    | OSet i v =>
      match cells st !! i with
      | None => Some st
      | Some c =>
        if negb (strict_eqb v (cur c)) then go f (ONotify i 0) (store_cur i v st)
        else Some st
      end
    | ONotify i k =>
      match subs_of st i !! k with
      | None => Some st
      | Some l =>
        match go f (ORun l (value i st)) st with
        | None => None
        | Some st1 => go f (ONotify i (S k)) st1
        end
      end
    | ORun l v =>
      match l with
      | LUser k => Some (add_note k v st)
      | LMap m d => let '(v', st1) := apply_mfun m v st in go f (OSet d v') st1
      | LInner d => go f (OSet d v) st
      | LBind b d =>
        let '(e, st1) := eval_bfun b v st in
        match go f (OSet d (value e st1)) st1 with
        | None => None
        | Some st2 => Some (subscribe e (LInner d) st2)
        end
      end
    end
  end.

(** [c._set(v)] from outside. *)
Definition set_ (fuel : nat) (i : nat) (v : val) (st : store) : option store :=
  go fuel (OSet i v) st.

(** [m.bind(f)]: [resultEffect = effect(f(baseSignal.value()).value())];
    returns the seed inner effect too. *)
Definition bind_full (m : nat) (b : bfun) (st : store) : nat * nat * store :=
  let '(e0, st1) := eval_bfun b (value m st) st in
  let '(r, st2) := effect (value e0 st1) st1 in
  (e0, r, subscribe m (LBind b r) st2).

Definition bind_ (m : nat) (b : bfun) (st : store) : nat * store :=
  let '(_, r, st') := bind_full m b st in (r, st').

(** [sequence(effects)]:
    [effects.reduce((acc, curr) => acc.bind(arr => curr.map(val => [...arr, val])),
                    pureEffect([]))]. *)
Definition sequence (es : list nat) (st : store) : nat * store :=
  let '(nil_arr, st1) := alloc_array [] st in
  let '(acc0, st2) := pureEffect nil_arr st1 in
  fold_left (fun '(acc, s) curr => bind_ acc (BSeq curr) s) es (acc0, st2).

(** [filterPlugin(predicate)(signal)]. *)
Definition filterPlugin (p : val -> bool) (s : nat) (st : store) : nat * store :=
  map_ s (MFilter p s) st.

(** ** Basic facts about the store *)

Lemma strict_eqb_eq (x y : val) : strict_eqb x y = true -> x = y.
Proof.
  destruct x, y; simpl; intros H; try discriminate; try reflexivity.
  - apply Bool.eqb_prop in H; subst; reflexivity.
  - apply Z.eqb_eq in H; subst; reflexivity.
  - apply String.eqb_eq in H; subst; reflexivity.
  - apply Nat.eqb_eq in H; subst; reflexivity.
Qed.

Lemma strict_eqb_refl (x : val) : x <> VNaN -> strict_eqb x x = true.
Proof.
  destruct x; simpl; intros H; try reflexivity.
  - apply Bool.eqb_reflx.
  - apply Z.eqb_refl.
  - congruence.
  - apply String.eqb_refl.
  - apply Nat.eqb_refl.
Qed.

Definition all_user (st : store) (i : nat) : Prop :=
  Forall (fun l => exists k, l = LUser k) (subs_of st i).

Lemma subs_of_add_note (st : store) (i k : nat) (v : val) :
  subs_of (add_note k v st) i = subs_of st i.
Proof. reflexivity. Qed.

Lemma go_user (f k : nat) (v : val) (st st1 : store) :
  go f (ORun (LUser k) v) st = Some st1 -> st1 = add_note k v st.
Proof. destruct f; simpl; congruence. Qed.

(** Notifying a container whose subscribers are all outside subscribers
    only appends to the notification log, one entry per remaining subscriber. *)
Lemma notify_users (f : nat) : forall (i k : nat) (st st' : store),
  all_user st i ->
  go f (ONotify i k) st = Some st' ->
  cells st' = cells st /\ heap st' = heap st /\ changes st' = changes st /\
  length (notes st') = (length (notes st) + (length (subs_of st i) - k))%nat.
Proof.
  induction f as [|f IH]; intros i k st st' Hu Hgo; [discriminate|].
  simpl in Hgo.
  destruct (subs_of st i !! k) as [l|] eqn:Hk.
  - assert (Hl : exists k', l = LUser k').
    { unfold all_user in Hu. rewrite Forall_lookup in Hu. eapply Hu; eauto. }
    destruct Hl as [k' ->].
    destruct (go f (ORun (LUser k') (value i st)) st) as [st1|] eqn:Hr;
      [|discriminate].
    apply go_user in Hr. subst st1.
    apply lookup_lt_Some in Hk.
    assert (Hu' : all_user (add_note k' (value i st) st) i) by exact Hu.
    destruct (IH i (S k) _ _ Hu' Hgo) as (H1 & H2 & H3 & H4).
    simpl in *. repeat split; try assumption.
    rewrite H4. rewrite subs_of_add_note. lia.
  - injection Hgo as <-. apply lookup_ge_None in Hk.
    repeat split. lia.
Qed.

Lemma store_cur_lookup (st : store) (i : nat) (v : val) (c : cell) :
  cells st !! i = Some c ->
  cells (store_cur i v st) !! i = Some (mkcell v (subs c)).
Proof.
  intros H. unfold store_cur. rewrite H. simpl.
  apply list_lookup_insert_eq. eapply lookup_lt_Some; eauto.
Qed.

Lemma subs_of_store_cur (st : store) (i j : nat) (v : val) :
  subs_of (store_cur i v st) j = subs_of st j.
Proof.
  unfold subs_of, store_cur.
  destruct (cells st !! i) as [c|] eqn:Hi; [|reflexivity]. simpl.
  destruct (decide (i = j)) as [<-|Hne].
  - rewrite list_lookup_insert_eq by (eapply lookup_lt_Some; eauto).
    rewrite Hi. reflexivity.
  - rewrite list_lookup_insert_ne by exact Hne. reflexivity.
Qed.

Lemma value_store_cur (st : store) (i : nat) (v : val) :
  (i < length (cells st))%nat -> value i (store_cur i v st) = v.
Proof.
  intros Hi. apply lookup_lt_is_Some_2 in Hi. destruct Hi as [c Hc].
  unfold value. rewrite (store_cur_lookup _ _ _ _ Hc). reflexivity.
Qed.

Lemma length_store_cur (st : store) (i : nat) (v : val) :
  length (cells (store_cur i v st)) = length (cells st).
Proof.
  unfold store_cur. destruct (cells st !! i); simpl; [apply length_insert|reflexivity].
Qed.

(** The setter on a container whose subscribers are outside subscribers:
    either nothing happens, or the value is stored and each subscriber is
    called once. *)
Lemma set_users (fuel : nat) (st st1 : store) (i : nat) (v : val) :
  (i < length (cells st))%nat -> all_user st i ->
  set_ fuel i v st = Some st1 ->
  value i st1 = v /\ subs_of st1 i = subs_of st i /\
  length (notes st1) =
    (length (notes st) + (if strict_eqb v (value i st) then 0 else length (subs_of st i)))%nat.
Proof.
  intros Hi Hu Hset. unfold set_ in Hset.
  destruct fuel as [|f]; [discriminate|]. simpl in Hset.
  pose proof Hi as Hi'. apply lookup_lt_is_Some_2 in Hi'. destruct Hi' as [c Hc].
  rewrite Hc in Hset. unfold value at 2. rewrite Hc.
  destruct (strict_eqb v (cur c)) eqn:Heq; simpl in Hset.
  - injection Hset as <-. apply strict_eqb_eq in Heq. subst v.
    unfold value. rewrite Hc. repeat split. lia.
  - assert (Hu' : all_user (store_cur i v st) i).
    { unfold all_user. rewrite subs_of_store_cur. exact Hu. }
    destruct (notify_users _ _ _ _ _ Hu' Hset) as (H1 & _ & _ & H4).
    split; [|split].
    + unfold value. rewrite H1. rewrite (store_cur_lookup _ _ _ _ Hc). reflexivity.
    + unfold subs_of at 1. rewrite H1. fold (subs_of (store_cur i v st) i).
      apply subs_of_store_cur.
    + rewrite H4. rewrite subs_of_store_cur.
      unfold store_cur. rewrite Hc. simpl. lia.
Qed.

(** ** C3: change suppression in the setter *)

(** The scenario of the counterexample: a container holding [0] with one
    outside subscriber, set twice in a row to [NaN]. *)
Definition nan_twice : option (store * store) :=
  let '(c, s0) := signal (VNum 0) empty_store in
  let s1 := subscribe c (LUser 0) s0 in
  match set_ 10 c VNaN s1 with
  | Some s2 => match set_ 10 c VNaN s2 with
               | Some s3 => Some (s2, s3)
               | None => None
               end
  | None => None
  end.

(** C3 (counterexample): setting a container twice in a row to the same
    primitive value [NaN] notifies on both sets, since [NaN !== NaN]; the
    second set produces one notification, not zero. *)
Lemma C3_nan_notifies_twice :
  match nan_twice with
  | Some (s2, s3) => length (notes s2) = 1%nat /\ length (notes s3) = 2%nat
  | None => False
  end.
Proof. vm_compute. split; reflexivity. Qed.

(** C3 (amended): for a container whose subscribers are outside subscribers,
    the setter calls each subscriber once if the new value is [!==] the
    current one and calls none otherwise; afterwards the container holds the
    value, so a second set to the same value other than [NaN] changes nothing
    and notifies no one. *)
Theorem C3_setter_notifies_iff_strictly_different
    (fuel : nat) (st st1 : store) (i : nat) (v : val) :
  (i < length (cells st))%nat -> all_user st i ->
  set_ fuel i v st = Some st1 ->
  length (notes st1) =
    (length (notes st) + (if strict_eqb v (value i st) then 0 else length (subs_of st i)))%nat /\
  (v <> VNaN -> forall (fuel' : nat) (st2 : store), set_ fuel' i v st1 = Some st2 -> st2 = st1).
Proof.
  intros Hi Hu Hset.
  destruct (set_users _ _ _ _ _ Hi Hu Hset) as (Hv & _ & Hn).
  split; [exact Hn|].
  intros Hnan fuel' st2 Hset2. unfold set_ in Hset2.
  destruct fuel' as [|f]; [discriminate|]. simpl in Hset2.
  unfold value in Hv.
  destruct (cells st1 !! i) as [c|]; [|congruence].
  subst v. rewrite strict_eqb_refl in Hset2 by exact Hnan. simpl in Hset2. congruence.
Qed.

Definition c3_store : store := subscribe 0 (LUser 0) (snd (signal (VNum 0) empty_store)).

Lemma C3_setter_notifies_iff_strictly_different_witness :
  (0 < length (cells c3_store))%nat /\ all_user c3_store 0 /\
  match set_ 10 0 (VNum 5) c3_store with
  | Some st1 => length (notes st1) = 1%nat
  | None => False
  end.
Proof.
  assert (H1 : (0 < length (cells c3_store))%nat) by (vm_compute; lia).
  assert (H2 : all_user c3_store 0)
    by (unfold all_user; vm_compute; constructor; [eauto|constructor]).
  split; [exact H1|split; [exact H2|]].
  destruct (set_ 10 0 (VNum 5) c3_store) as [st1|] eqn:E.
  - destruct (C3_setter_notifies_iff_strictly_different 10 c3_store st1 0 (VNum 5) H1 H2 E)
      as [H _].
    rewrite H. vm_compute. reflexivity.
  - vm_compute in E. discriminate.
Defined.

(** ** Lemmas on the primitive store updates *)

Lemma value_subscribe (st : store) (i j : nat) (l : listener) :
  value j (subscribe i l st) = value j st.
Proof.
  unfold value, subscribe.
  destruct (cells st !! i) as [c|] eqn:Hi; [|reflexivity]. simpl.
  destruct (decide (i = j)) as [<-|Hne].
  - rewrite list_lookup_insert_eq by (eapply lookup_lt_Some; eauto). rewrite Hi. reflexivity.
  - rewrite list_lookup_insert_ne by exact Hne. reflexivity.
Qed.

Lemma subs_of_subscribe (st : store) (i j : nat) (l : listener) :
  subs_of (subscribe i l st) j =
    if decide (i = j) then
      (if decide (i < length (cells st))%nat then subs_of st j ++ [l] else subs_of st j)
    else subs_of st j.
Proof.
  unfold subs_of, subscribe.
  destruct (cells st !! i) as [c|] eqn:Hi.
  - pose proof (lookup_lt_Some _ _ _ Hi) as Hlt. simpl.
    destruct (decide (i = j)) as [<-|Hne].
    + rewrite list_lookup_insert_eq by exact Hlt. rewrite Hi.
      destruct (decide _); [reflexivity|lia].
    + rewrite list_lookup_insert_ne by exact Hne. reflexivity.
  - destruct (decide (i = j)) as [<-|]; [|reflexivity].
    rewrite Hi. apply lookup_ge_None in Hi. destruct (decide _); [lia|reflexivity].
Qed.

Lemma length_subscribe (st : store) (i : nat) (l : listener) :
  length (cells (subscribe i l st)) = length (cells st).
Proof.
  unfold subscribe. destruct (cells st !! i); simpl; [apply length_insert|reflexivity].
Qed.

Lemma value_store_cur_ne (st : store) (i j : nat) (v : val) :
  i <> j -> value j (store_cur i v st) = value j st.
Proof.
  intros Hne. unfold value, store_cur.
  destruct (cells st !! i); simpl; [|reflexivity].
  rewrite list_lookup_insert_ne by exact Hne. reflexivity.
Qed.

(** Inversion of one interpreter step. *)
Lemma go_set_inv (f : nat) (i : nat) (v : val) (st st1 : store) :
  go f (OSet i v) st = Some st1 ->
  exists f', f = S f' /\
    match cells st !! i with
    | None => st1 = st
    | Some c => if negb (strict_eqb v (cur c)) then go f' (ONotify i 0) (store_cur i v st) = Some st1
                else st1 = st
    end.
Proof.
  destruct f as [|f']; [discriminate|]. intros H. exists f'. split; [reflexivity|].
  simpl in H. destruct (cells st !! i); [|congruence].
  destruct (negb _); congruence.
Qed.

Lemma go_notify_inv (f : nat) (i k : nat) (st st1 : store) :
  go f (ONotify i k) st = Some st1 ->
  exists f', f = S f' /\
    match subs_of st i !! k with
    | None => st1 = st
    | Some l => exists st2, go f' (ORun l (value i st)) st = Some st2 /\
                            go f' (ONotify i (S k)) st2 = Some st1
    end.
Proof.
  destruct f as [|f']; [discriminate|]. intros H. exists f'. split; [reflexivity|].
  simpl in H. destruct (subs_of st i !! k); [|congruence].
  destruct (go f' _ st) as [st2|]; [eauto|discriminate].
Qed.

Lemma go_run_inv (f : nat) (l : listener) (v : val) (st st1 : store) :
  go f (ORun l v) st = Some st1 ->
  exists f', f = S f' /\
    match l with
    | LUser k => st1 = add_note k v st
    | LMap m d => let '(v', s) := apply_mfun m v st in go f' (OSet d v') s = Some st1
    | LInner d => go f' (OSet d v) st = Some st1
    | LBind b d => let '(e, s) := eval_bfun b v st in
                   exists st2, go f' (OSet d (value e s)) s = Some st2 /\
                               st1 = subscribe e (LInner d) st2
    end.
Proof.
  destruct f as [|f']; [discriminate|]. intros H. exists f'. split; [reflexivity|].
  simpl in H. destruct l as [k|m d|b d|d].
  - congruence.
  - destruct (apply_mfun m v st). exact H.
  - destruct (eval_bfun b v st) as [e s].
    destruct (go f' _ s) as [st2|]; [|discriminate]. exists st2. split; congruence.
  - exact H.
Qed.

(** Setting an all-outside-subscriber container: only that container's
    value may change. *)
Lemma set_users_frame (fuel : nat) (st st1 : store) (i : nat) (v : val) :
  (i < length (cells st))%nat -> all_user st i ->
  set_ fuel i v st = Some st1 ->
  length (cells st1) = length (cells st) /\
  (forall j, subs_of st1 j = subs_of st j) /\
  (forall j, j <> i -> value j st1 = value j st) /\
  value i st1 = v.
Proof.
  intros Hi Hu Hset.
  pose proof (set_users _ _ _ _ _ Hi Hu Hset) as (Hv & _ & _).
  apply go_set_inv in Hset. destruct Hset as (f' & -> & H).
  pose proof Hi as Hi'. apply lookup_lt_is_Some_2 in Hi'. destruct Hi' as [c Hc].
  rewrite Hc in H.
  destruct (negb _).
  - assert (Hu' : all_user (store_cur i v st) i).
    { unfold all_user. rewrite subs_of_store_cur. exact Hu. }
    destruct (notify_users _ _ _ _ _ Hu' H) as (H1 & _).
    repeat split.
    + rewrite H1. apply length_store_cur.
    + intros j. unfold subs_of at 1. rewrite H1. fold (subs_of (store_cur i v st) j).
      apply subs_of_store_cur.
    + intros j Hj. unfold value at 1. rewrite H1. fold (value j (store_cur i v st)).
      apply value_store_cur_ne. congruence.
    + exact Hv.
  - subst st1. repeat split; auto.
Qed.

(** ** Mirrors: containers derived from [c] by an identity-like map *)

Section Mirrors.

Variable c : nat.
Variable D : list nat.

(** A map function that gives back the source's current value unchanged. *)
Definition idlike (m : mfun) : Prop :=
  forall (v : val) (st : store), value c st = v -> apply_mfun m v st = (v, st).

Definition mirror_shape (st : store) : Prop :=
  (c < length (cells st))%nat /\
  (forall d, In d D -> d <> c /\ (d < length (cells st))%nat /\ all_user st d) /\
  (forall l, In l (subs_of st c) ->
     (exists k, l = LUser k) \/ (exists m d, l = LMap m d /\ In d D /\ idlike m)) /\
  (forall d, In d D -> exists j m, subs_of st c !! j = Some (LMap m d)).

Definition mirrors (st : store) : Prop :=
  mirror_shape st /\ forall d, In d D -> value d st = value c st.

Lemma mirror_shape_frame (st st' : store) :
  length (cells st') = length (cells st) ->
  (forall j, subs_of st' j = subs_of st j) ->
  mirror_shape st -> mirror_shape st'.
Proof.
  intros Hl Hs (H1 & H2 & H3 & H4).
  split; [|split; [|split]].
  - rewrite Hl. exact H1.
  - intros d Hd. destruct (H2 d Hd) as (Hne & Hlt & Hu).
    split; [exact Hne|split; [rewrite Hl; exact Hlt|]].
    unfold all_user. rewrite Hs. exact Hu.
  - intros l Hin. rewrite Hs in Hin. apply H3. exact Hin.
  - intros d Hd. rewrite Hs. apply H4. exact Hd.
Qed.

Lemma notify_mirrors (f : nat) : forall (k : nat) (st st' : store),
  mirror_shape st ->
  (forall d, In d D -> value d st = value c st \/
     exists j m, (k <= j)%nat /\ subs_of st c !! j = Some (LMap m d)) ->
  go f (ONotify c k) st = Some st' ->
  mirrors st' /\ value c st' = value c st /\
  length (cells st') = length (cells st) /\ (forall j, subs_of st' j = subs_of st j).
Proof.
  induction f as [|f IH]; intros k st st' Hsh Hpend Hgo; [discriminate|].
  apply go_notify_inv in Hgo. destruct Hgo as (f' & Hf & Hgo). injection Hf as <-.
  destruct (subs_of st c !! k) as [l|] eqn:Hk.
  - destruct Hgo as (st2 & Hrun & Hrest).
    pose proof (list_elem_of_lookup_2 _ _ _ Hk) as Hin.
    apply list_elem_of_In in Hin.
    destruct Hsh as (Hc & HD & Hls & Hex) eqn:Hsh0.
    destruct (Hls l Hin) as [[k' ->]|(m & d0 & -> & Hd0 & Hid)].
    + apply go_user in Hrun. subst st2.
      destruct (IH (S k) (add_note k' (value c st) st) st' Hsh) as (Hm & Hv & Hlen & Hs);
        [|exact Hrest|].
      * intros d Hd. destruct (Hpend d Hd) as [Heq|(j & m & Hj & Hjl)]; [left; exact Heq|].
        right. exists j, m. split; [|exact Hjl].
        destruct (decide (j = k)) as [->|]; [congruence|lia].
      * split; [exact Hm|]. split; [exact Hv|]. split; [exact Hlen|exact Hs].
    + apply go_run_inv in Hrun. destruct Hrun as (f'' & -> & Hrun).
      rewrite (Hid (value c st) st eq_refl) in Hrun.
      destruct (HD d0 Hd0) as (Hne & Hlt & Hu).
      destruct (set_users_frame _ _ _ _ _ Hlt Hu Hrun) as (Hl2 & Hs2 & Hv2 & Hd2).
      assert (Hsh2 : mirror_shape st2) by (eapply mirror_shape_frame; eauto).
      destruct (IH (S k) st2 st' Hsh2) as (Hm & Hv & Hlen & Hs); [|exact Hrest|].
      * intros d Hd. destruct (decide (d = d0)) as [->|Hdd].
        -- left. rewrite Hd2. rewrite (Hv2 c (not_eq_sym Hne)). reflexivity.
        -- rewrite (Hv2 d Hdd). rewrite (Hv2 c (not_eq_sym Hne)).
           destruct (Hpend d Hd) as [Heq|(j & m' & Hj & Hjl)]; [left; exact Heq|].
           right. exists j, m'. split; [|rewrite Hs2; exact Hjl].
           destruct (decide (j = k)) as [->|]; [congruence|lia].
      * split; [exact Hm|]. split; [rewrite Hv; apply Hv2; congruence|].
        split; [congruence|]. intros j. rewrite Hs. apply Hs2.
  - subst st'. split; [split; [exact Hsh|]|].
    + intros d Hd. destruct (Hpend d Hd) as [Heq|(j & m & Hj & Hjl)]; [exact Heq|].
      apply lookup_ge_None in Hk. apply lookup_lt_Some in Hjl. lia.
    + split; [reflexivity|split; [reflexivity|reflexivity]].
Qed.

Lemma set_mirrors (f : nat) (v : val) (st st' : store) :
  mirrors st -> go f (OSet c v) st = Some st' -> mirrors st'.
Proof.
  intros [Hsh Hval] Hgo.
  apply go_set_inv in Hgo. destruct Hgo as (f' & -> & Hgo).
  pose proof Hsh as (Hc & _ & _ & Hex).
  pose proof Hc as Hc'. apply lookup_lt_is_Some_2 in Hc'. destruct Hc' as [cc Hcc].
  rewrite Hcc in Hgo.
  destruct (negb _).
  - assert (Hsh1 : mirror_shape (store_cur c v st)).
    { eapply mirror_shape_frame; [apply length_store_cur| |exact Hsh].
      intros j. apply subs_of_store_cur. }
    eapply notify_mirrors; [exact Hsh1| |exact Hgo].
    intros d Hd. right. destruct (Hex d Hd) as (j & m & Hj).
    exists j, m. split; [lia|]. rewrite subs_of_store_cur. exact Hj.
  - subst st'. split; assumption.
Qed.

Lemma subscribe_user_mirrors (i k : nat) (st : store) :
  mirrors st -> mirrors (subscribe i (LUser k) st).
Proof.
  intros [(Hc & HD & Hls & Hex) Hval].
  split; [split; [|split; [|split]]|].
  - rewrite length_subscribe. exact Hc.
  - intros d Hd. destruct (HD d Hd) as (Hne & Hlt & Hu).
    split; [exact Hne|split; [rewrite length_subscribe; exact Hlt|]].
    unfold all_user in *. rewrite subs_of_subscribe.
    destruct (decide (i = d)); [|exact Hu]. destruct (decide _); [|exact Hu].
    apply Forall_app. split; [exact Hu|]. constructor; [eauto|constructor].
  - intros l Hin. rewrite subs_of_subscribe in Hin.
    destruct (decide (i = c)); [destruct (decide _)|]; try (apply Hls; exact Hin).
    apply in_app_or in Hin. destruct Hin as [Hin|[<-|[]]]; [apply Hls; exact Hin|].
    left. eauto.
  - intros d Hd. destruct (Hex d Hd) as (j & m & Hj). exists j, m.
    rewrite subs_of_subscribe.
    destruct (decide (i = c)); [destruct (decide _)|]; try exact Hj.
    rewrite lookup_app_l; [exact Hj|]. eapply lookup_lt_Some; eauto.
  - intros d Hd. rewrite !value_subscribe. apply Hval. exact Hd.
Qed.

End Mirrors.

Lemma value_signal (v : val) (st : store) (j : nat) :
  value j (snd (signal v st)) =
    if decide (j = length (cells st)) then v else value j st.
Proof.
  unfold value, signal. simpl. destruct (decide _) as [->|Hne].
  - rewrite lookup_app_r by lia. rewrite Nat.sub_diag. reflexivity.
  - destruct (decide (j < length (cells st))%nat).
    + rewrite lookup_app_l by lia. reflexivity.
    + rewrite lookup_app_r by lia.
      rewrite (lookup_ge_None_2 (cells st) j) by lia.
      destruct (j - length (cells st))%nat as [|n0] eqn:E; [lia|].
      reflexivity.
Qed.

Lemma subs_of_signal (v : val) (st : store) (j : nat) :
  subs_of (snd (signal v st)) j = subs_of st j.
Proof.
  unfold subs_of, signal. simpl.
  destruct (decide (j < length (cells st))%nat).
  - rewrite lookup_app_l by lia. reflexivity.
  - rewrite lookup_app_r by lia.
    rewrite (lookup_ge_None_2 (cells st) j) by lia.
    destruct (j - length (cells st))%nat as [|n0]; [reflexivity|].
    reflexivity.
Qed.

Lemma length_signal (v : val) (st : store) :
  length (cells (snd (signal v st))) = S (length (cells st)).
Proof. unfold signal. simpl. rewrite length_app. simpl. lia. Qed.

Lemma mirrors_nil (c : nat) (st : store) :
  (c < length (cells st))%nat ->
  (forall l, In l (subs_of st c) -> exists k, l = LUser k) ->
  mirrors c [] st.
Proof.
  intros Hc Hu. split; [split; [exact Hc|split; [|split]]|].
  - intros d [].
  - intros l Hin. left. apply Hu. exact Hin.
  - intros d [].
  - intros d [].
Qed.

(** [map] with an identity-like function adds one more mirror. *)
Lemma map_mirrors (c : nat) (D : list nat) (m : mfun) (st st' : store) (d : nat) :
  mirrors c D st -> idlike c m -> map_ c m st = (d, st') -> mirrors c (d :: D) st'.
Proof.
  intros [(Hc & HD & Hls & Hex) Hval] Hid Hmap.
  unfold map_ in Hmap. rewrite (Hid (value c st) st eq_refl) in Hmap.
  remember (snd (signal (value c st) st)) as st1 eqn:Hst1.
  assert (Hsig : signal (value c st) st = (length (cells st), st1)) by (subst; reflexivity).
  rewrite Hsig in Hmap. injection Hmap as <- <-.
  assert (Hv1 : forall j, value j st1 =
            if decide (j = length (cells st)) then value c st else value j st)
    by (intros j; subst; apply value_signal).
  assert (Hs1 : forall j, subs_of st1 j = subs_of st j)
    by (intros j; subst; apply subs_of_signal).
  assert (Hl1 : length (cells st1) = S (length (cells st))) by (subst; apply length_signal).
  assert (Hcd : c <> length (cells st)) by lia.
  split; [split; [|split; [|split]]|].
  - rewrite length_subscribe. lia.
  - intros d' [<-|Hd'].
    + split; [congruence|]. split; [rewrite length_subscribe; lia|].
      unfold all_user. rewrite subs_of_subscribe.
      destruct (decide (c = _)); [congruence|]. rewrite Hs1.
      unfold subs_of. rewrite lookup_ge_None_2 by lia. constructor.
    + destruct (HD d' Hd') as (Hne & Hlt & Hu).
      split; [exact Hne|]. split; [rewrite length_subscribe; lia|].
      unfold all_user. rewrite subs_of_subscribe.
      destruct (decide (c = d')); [congruence|]. rewrite Hs1. exact Hu.
  - intros l Hin. rewrite subs_of_subscribe in Hin.
    destruct (decide (c = c)); [|congruence]. destruct (decide _); [|lia].
    rewrite Hs1 in Hin. apply in_app_or in Hin.
    destruct Hin as [Hin|[<-|[]]].
    + destruct (Hls l Hin) as [Hu|(m' & d'' & -> & Hd'' & Hid')]; [left; exact Hu|].
      right. exists m', d''. split; [reflexivity|split; [right; exact Hd''|exact Hid']].
    + right. exists m, (length (cells st)). split; [reflexivity|split; [left; reflexivity|exact Hid]].
  - intros d' [<-|Hd'].
    + exists (length (subs_of st c)), m. rewrite subs_of_subscribe.
      destruct (decide (c = c)); [|congruence]. destruct (decide _); [|lia].
      rewrite Hs1. rewrite lookup_app_r by lia. rewrite Nat.sub_diag. reflexivity.
    + destruct (Hex d' Hd') as (j & m' & Hj). exists j, m'.
      rewrite subs_of_subscribe.
      destruct (decide (c = c)); [|congruence]. destruct (decide _); [|lia].
      rewrite Hs1. rewrite lookup_app_l; [exact Hj|]. eapply lookup_lt_Some; eauto.
  - intros d' Hd'. rewrite !value_subscribe. rewrite !Hv1.
    destruct (decide (c = _)); [congruence|].
    destruct Hd' as [<-|Hd'].
    + destruct (decide _); [reflexivity|congruence].
    + destruct (HD d' Hd') as (_ & Hlt & _).
      destruct (decide _); [lia|]. apply Hval. exact Hd'.
Qed.

(** Outside updates of a source container: [c._set(v)], or an outside
    subscriber [k] subscribing to container [i]. *)
Inductive upd : Type :=
| USet (v : val)
| USub (i k : nat).

Fixpoint run_updates (fuel : nat) (c : nat) (us : list upd) (st : store) : option store :=
  match us with
  | [] => Some st
  | USet v :: us' =>
    match set_ fuel c v st with
    | Some st1 => run_updates fuel c us' st1
    | None => None
    end
  | USub i k :: us' => run_updates fuel c us' (subscribe i (LUser k) st)
  end.

Lemma run_updates_mirrors (fuel c : nat) (D : list nat) :
  forall (us : list upd) (st st' : store),
  mirrors c D st -> run_updates fuel c us st = Some st' -> mirrors c D st'.
Proof.
  induction us as [|u us IH]; intros st st' Hm Hrun; simpl in Hrun.
  - congruence.
  - destruct u as [v|i k].
    + destruct (set_ fuel c v st) as [st1|] eqn:Hs; [|discriminate].
      eapply IH; [|exact Hrun]. eapply set_mirrors; eauto.
    + eapply IH; [|exact Hrun]. apply subscribe_user_mirrors. exact Hm.
Qed.

Lemma fresh_signal_mirrors (v : val) (st st1 : store) (c : nat) :
  signal v st = (c, st1) -> mirrors c [] st1.
Proof.
  intros H. injection H as <- <-. apply mirrors_nil.
  - unfold signal. simpl. rewrite length_app. simpl. lia.
  - intros l Hin. unfold subs_of, signal in Hin. simpl in Hin.
    rewrite lookup_app_r in Hin by lia. rewrite Nat.sub_diag in Hin. destruct Hin.
Qed.

Lemma idlike_MId (c : nat) : idlike c MId.
Proof. intros v st _. reflexivity. Qed.

Lemma idlike_filter (c : nat) (p : val -> bool) : idlike c (MFilter p c).
Proof. intros v st Hv. simpl. rewrite Hv. destruct (p v); reflexivity. Qed.

(** ** C4: functor identity *)

(** C4: for a container [c] and its [c.map(identity)], after any sequence of
    outside updates ([c._set] calls and outside subscriptions), the derived
    container holds the same value as [c]. *)
Theorem C4_map_identity_value (st0 st1 st2 st' : store) (init : val) (c d : nat)
    (us : list upd) (fuel : nat) :
  signal init st0 = (c, st1) ->
  map_ c MId st1 = (d, st2) ->
  run_updates fuel c us st2 = Some st' ->
  value d st' = value c st'.
Proof.
  intros Hs Hm Hrun.
  pose proof (fresh_signal_mirrors _ _ _ _ Hs) as H0.
  pose proof (map_mirrors _ _ _ _ _ _ H0 (idlike_MId c) Hm) as H1.
  destruct (run_updates_mirrors _ _ _ _ _ _ H1 Hrun) as [_ Hv].
  apply Hv. left. reflexivity.
Qed.

Definition c4_updates : list upd := [USet (VNum 10); USub 1 0; USet VNaN; USet (VNum 10)].

Lemma C4_map_identity_value_witness :
  match run_updates 50 0 c4_updates (snd (map_ 0 MId (snd (signal (VNum 5) empty_store)))) with
  | Some st' => value 1 st' = value 0 st' /\ value 0 st' = VNum 10
  | None => False
  end.
Proof.
  destruct (run_updates 50 0 c4_updates _) as [st'|] eqn:E.
  - split.
    + apply (C4_map_identity_value empty_store (snd (signal (VNum 5) empty_store))
               (snd (map_ 0 MId (snd (signal (VNum 5) empty_store)))) st' (VNum 5) 0 1
               c4_updates 50); [reflexivity|reflexivity|exact E].
    + vm_compute in E. injection E as <-. reflexivity.
  - vm_compute in E. discriminate.
Defined.

(** ** C9: filterPlugin never filters *)

(** C9: for every predicate [p] and source container [s], the container
    returned by [filterPlugin(p)(s)] holds the same value as [s.map(identity)]
    (and as [s]) after any sequence of outside updates: the fallback branch
    reads [s.value()] after [s] has stored the new value. *)
Theorem C9_filterPlugin_is_map_identity (st0 st1 st2 st3 st' : store) (init : val)
    (p : val -> bool) (s d1 d2 : nat) (us : list upd) (fuel : nat) :
  signal init st0 = (s, st1) ->
  map_ s MId st1 = (d1, st2) ->
  filterPlugin p s st2 = (d2, st3) ->
  run_updates fuel s us st3 = Some st' ->
  value d2 st' = value d1 st' /\ value d2 st' = value s st'.
Proof.
  intros Hs Hm Hf Hrun.
  pose proof (fresh_signal_mirrors _ _ _ _ Hs) as H0.
  pose proof (map_mirrors _ _ _ _ _ _ H0 (idlike_MId s) Hm) as H1.
  pose proof (map_mirrors _ _ _ _ _ _ H1 (idlike_filter s p) Hf) as H2.
  destruct (run_updates_mirrors _ _ _ _ _ _ H2 Hrun) as [_ Hv].
  rewrite (Hv d2 (or_introl eq_refl)). rewrite (Hv d1 (or_intror (or_introl eq_refl))).
  split; reflexivity.
Qed.

Definition is_positive (v : val) : bool :=
  match v with VNum n => Z.ltb 0 n | _ => false end.

Definition c9_store : store :=
  snd (filterPlugin is_positive 0 (snd (map_ 0 MId (snd (signal (VNum 5) empty_store))))).

Lemma C9_filterPlugin_is_map_identity_witness :
  match run_updates 50 0 [USet (VNum (-3))] c9_store with
  | Some st' => value 2 st' = value 1 st' /\ value 2 st' = VNum (-3)
  | None => False
  end.
Proof.
  destruct (run_updates 50 0 [USet (VNum (-3))] c9_store) as [st'|] eqn:E.
  - destruct (C9_filterPlugin_is_map_identity empty_store (snd (signal (VNum 5) empty_store))
               (snd (map_ 0 MId (snd (signal (VNum 5) empty_store)))) c9_store st'
               (VNum 5) is_positive 0 1 2 [USet (VNum (-3))] 50) as [H1 H2];
      [reflexivity|reflexivity|reflexivity|exact E|].
    split; [exact H1|]. rewrite H2. vm_compute in E. injection E as <-. reflexivity.
  - vm_compute in E. discriminate.
Defined.

(** ** Growth of the store and the change log *)

Definition grows (st st' : store) : Prop :=
  (length (cells st) <= length (cells st'))%nat /\ exists new, changes st' = new ++ changes st.

Lemma grows_refl (st : store) : grows st st.
Proof. split; [lia|]. exists []. reflexivity. Qed.

Lemma grows_trans (st1 st2 st3 : store) : grows st1 st2 -> grows st2 st3 -> grows st1 st3.
Proof.
  intros [H1 [n1 E1]] [H2 [n2 E2]]. split; [lia|]. exists (n2 ++ n1).
  rewrite E2, E1. apply app_assoc.
Qed.

(** How many times container [p] has stored a new value. *)
Definition emits (p : nat) (st : store) : nat :=
  length (List.filter (fun x => Nat.eqb (fst x) p) (changes st)).

Lemma emits_grows (p : nat) (st st' : store) : grows st st' -> (emits p st <= emits p st')%nat.
Proof.
  intros [_ [n E]]. unfold emits. rewrite E. rewrite List.filter_app, length_app. lia.
Qed.

Lemma map_frame (c : nat) (m : mfun) (st st' : store) (d : nat) :
  map_ c m st = (d, st') ->
  d = length (cells st) /\
  length (cells st') = S (length (cells st)) /\ changes st' = changes st /\
  (forall j, (j < length (cells st))%nat -> value j st' = value j st) /\
  (forall j l, In l (subs_of st' j) -> In l (subs_of st j) \/ l = LMap m d).
Proof.
  unfold map_. intros H.
  destruct (apply_mfun m (value c st) st) as [v0 st1] eqn:Ha.
  assert (Hc1 : cells st1 = cells st /\ changes st1 = changes st).
  { destruct m; simpl in Ha; injection Ha as <- <-; split; reflexivity. }
  destruct Hc1 as [Hc1 Hch1].
  remember (snd (signal v0 st1)) as st2 eqn:Hst2.
  assert (Hsig : signal v0 st1 = (length (cells st1), st2)) by (subst; reflexivity).
  rewrite Hsig in H. injection H as <- <-.
  rewrite Hc1. split; [reflexivity|].
  split; [rewrite length_subscribe; subst st2; rewrite length_signal; rewrite Hc1; reflexivity|].
  split; [subst st2; unfold subscribe; destruct (cells _ !! c); simpl; exact Hch1|].
  split.
  - intros j Hj. rewrite value_subscribe. subst st2. rewrite value_signal.
    rewrite Hc1. destruct (decide _); [lia|]. unfold value. rewrite Hc1. reflexivity.
  - intros j l Hin. rewrite subs_of_subscribe in Hin. subst st2.
    rewrite !subs_of_signal in Hin.
    assert (Hs : subs_of st1 j = subs_of st j) by (unfold subs_of; rewrite Hc1; reflexivity).
    rewrite Hs in Hin.
    destruct (decide (c = j)); [destruct (decide _)|]; try (left; exact Hin).
    apply in_app_or in Hin. destruct Hin as [Hin|[<-|[]]]; [left; exact Hin|].
    right. reflexivity.
Qed.

Lemma eval_bfun_frame (b : bfun) (v : val) (st s : store) (e : nat) :
  eval_bfun b v st = (e, s) ->
  (length (cells st) <= length (cells s))%nat /\ changes s = changes st /\
  (forall j, (j < length (cells st))%nat -> value j s = value j st) /\
  (forall j l, In l (subs_of s j) ->
     In l (subs_of st j) \/ exists m n, l = LMap m n /\ (length (cells st) <= n)%nat).
Proof.
  destruct b as [g|e0|curr]; unfold eval_bfun; intros H.
  - unfold effect in H.
    pose proof (value_signal (g v) st) as Hv. pose proof (subs_of_signal (g v) st) as Hs.
    pose proof (length_signal (g v) st) as Hl. rewrite H in Hv, Hs, Hl. simpl in Hv, Hs, Hl.
    assert (Hch : changes s = changes st) by (unfold signal in H; injection H as _ Hs'; subst s; reflexivity).
    split; [lia|]. split; [exact Hch|]. split.
    + intros j Hj. rewrite Hv. destruct (decide _); [lia|reflexivity].
    + intros j l Hin. rewrite Hs in Hin. left. exact Hin.
  - injection H as <- <-. split; [lia|]. split; [reflexivity|].
    split; [reflexivity|]. intros j l Hin. left. exact Hin.
  - destruct (map_frame _ _ _ _ _ H) as (Hd & Hl & Hch & Hv & Hs).
    split; [lia|]. split; [exact Hch|]. split; [exact Hv|].
    intros j l Hin. destruct (Hs j l Hin) as [Hin' | ->]; [left; exact Hin'|].
    right. exists (MSnoc v), e. split; [reflexivity|lia].
Qed.

Lemma apply_mfun_frame (m : mfun) (v : val) (st : store) (v' : val) (s : store) :
  apply_mfun m v st = (v', s) -> cells s = cells st /\ changes s = changes st.
Proof. destruct m; simpl; intros H; injection H as <- <-; split; reflexivity. Qed.

Lemma go_grows (f : nat) : forall (o : op) (st st' : store),
  go f o st = Some st' -> grows st st'.
Proof.
  induction f as [|f IH]; intros o st st' H; [discriminate|].
  destruct o as [i v|i k|l v].
  - apply go_set_inv in H. destruct H as (f' & Hf & H). injection Hf as <-.
    destruct (cells st !! i) as [c|] eqn:Hc; [|subst; apply grows_refl].
    destruct (negb _); [|subst; apply grows_refl].
    eapply grows_trans; [|exact (IH _ _ _ H)].
    split; [rewrite length_store_cur; lia|]. exists [(i, v)].
    unfold store_cur. rewrite Hc. reflexivity.
  - apply go_notify_inv in H. destruct H as (f' & Hf & H). injection Hf as <-.
    destruct (subs_of st i !! k); [|subst; apply grows_refl].
    destruct H as (st2 & H1 & H2).
    eapply grows_trans; [exact (IH _ _ _ H1)|exact (IH _ _ _ H2)].
  - apply go_run_inv in H. destruct H as (f' & Hf & H). injection Hf as <-.
    destruct l as [k|m d|b d|d].
    + subst. split; [simpl; lia|]. exists []. reflexivity.
    + destruct (apply_mfun m v st) as [v' s] eqn:Ha.
      destruct (apply_mfun_frame _ _ _ _ _ Ha) as [Hc Hch].
      eapply grows_trans; [|exact (IH _ _ _ H)].
      split; [rewrite Hc; lia|]. exists []. rewrite Hch. reflexivity.
    + destruct (eval_bfun b v st) as [e s] eqn:He.
      destruct (eval_bfun_frame _ _ _ _ _ He) as (Hl & Hch & _).
      destruct H as (st2 & H1 & ->).
      eapply grows_trans; [|eapply grows_trans; [exact (IH _ _ _ H1)|]].
      * split; [lia|]. exists []. rewrite Hch. reflexivity.
      * split; [rewrite length_subscribe; lia|]. exists [].
        unfold subscribe. destruct (cells st2 !! e); reflexivity.
    + exact (IH _ _ _ H).
Qed.

(** ** Quiet containers

    [Q] is a set of containers whose incoming subscriptions all sit on
    containers of [P] or of [Q].  If no container of [P] emits and
    the cascade does not start in [Q], no container of [Q] changes. *)

Section Quiet.

Variables P Q : list nat.

Definition quiet_inv (st : store) : Prop :=
  forall i l d, In l (subs_of st i) -> ldst l = Some d -> In d Q -> In i P \/ In i Q.

Definition in_range (st : store) : Prop :=
  forall q, In q Q -> (q < length (cells st))%nat.

Definition outside (o : op) : Prop :=
  match o with
  | OSet i _ => ~ In i Q
  | ONotify i _ => ~ In i P /\ ~ In i Q
  | ORun l _ => forall d, ldst l = Some d -> ~ In d Q
  end.

Lemma quiet_subscribe (st : store) (i : nat) (l : listener) :
  quiet_inv st ->
  (forall d, ldst l = Some d -> In d Q -> In i P \/ In i Q) ->
  quiet_inv (subscribe i l st).
Proof.
  intros Hq Hl j l' d Hin Hd HdQ. unfold quiet_inv in Hq. rewrite subs_of_subscribe in Hin.
  destruct (decide (i = j)) as [<-|]; [destruct (decide _)|].
  - apply in_app_or in Hin. destruct Hin as [Hin|[Heq|[]]]; [exact (Hq i l' d Hin Hd HdQ)|].
    subst l'. exact (Hl d Hd HdQ).
  - exact (Hq i l' d Hin Hd HdQ).
  - exact (Hq j l' d Hin Hd HdQ).
Qed.

Lemma quiet_frame (st s : store) :
  (forall j l, In l (subs_of s j) ->
     In l (subs_of st j) \/ exists m n, l = LMap m n /\ (length (cells st) <= n)%nat) ->
  quiet_inv st -> in_range st -> quiet_inv s.
Proof.
  intros Hs Hq Hr j l d Hin Hd HdQ. unfold quiet_inv, in_range in *.
  destruct (Hs j l Hin) as [Hin'|(m & n & -> & Hn)]; [eapply Hq; eauto|].
  simpl in Hd. injection Hd as <-. specialize (Hr n HdQ). lia.
Qed.

Lemma quiet_go (f : nat) : forall (o : op) (st st' : store),
  go f o st = Some st' ->
  quiet_inv st -> in_range st -> outside o ->
  (forall p, In p P -> emits p st' = emits p st) ->
  quiet_inv st' /\ in_range st' /\ (forall q, In q Q -> value q st' = value q st).
Proof.
  induction f as [|f IH]; intros o st st' H Hq Hr Ho Hp; [discriminate|].
  pose proof (go_grows _ _ _ _ H) as Hgr.
  assert (Hrange : forall s, (length (cells st) <= length (cells s))%nat -> in_range s).
  { intros s Hl q Hin. specialize (Hr q Hin). lia. }
  destruct o as [i v|i k|l v].
  - apply go_set_inv in H. destruct H as (f' & Hf & H). injection Hf as <-.
    destruct (cells st !! i) as [c|] eqn:Hc; [|subst; split; [exact Hq|split; [exact Hr|reflexivity]]].
    destruct (negb _); [|subst; split; [exact Hq|split; [exact Hr|reflexivity]]].
    set (st1 := store_cur i v st) in *.
    assert (Hgr1 : grows st1 st') by exact (go_grows _ _ _ _ H).
    assert (He1 : forall p, emits p st1 = ((if Nat.eqb i p then 1 else 0) + emits p st)%nat).
    { intros p. unfold emits, st1, store_cur. rewrite Hc. simpl.
      destruct (Nat.eqb i p); reflexivity. }
    assert (HiP : ~ In i P).
    { intros HiP. pose proof (emits_grows i _ _ Hgr1) as Hm.
      rewrite He1, Nat.eqb_refl, (Hp i HiP) in Hm. lia. }
    assert (Hq1 : quiet_inv st1).
    { unfold quiet_inv, st1. intros j l d Hin. rewrite subs_of_store_cur in Hin.
      exact (Hq j l d Hin). }
    assert (Hr1 : in_range st1) by (apply Hrange; unfold st1; rewrite length_store_cur; lia).
    destruct (IH _ _ _ H Hq1 Hr1) as (Hq' & Hr' & Hv').
    + split; [exact HiP|exact Ho].
    + intros p HpP. rewrite (Hp p HpP). rewrite He1.
      destruct (Nat.eqb_spec i p); [subst; contradiction|reflexivity].
    + split; [exact Hq'|split; [exact Hr'|]].
      intros q HqQ. rewrite (Hv' q HqQ). unfold st1. apply value_store_cur_ne.
      intros ->. apply Ho. exact HqQ.
  - apply go_notify_inv in H. destruct H as (f' & Hf & H). injection Hf as <-.
    destruct (subs_of st i !! k) as [l|] eqn:Hk; [|subst; split; [exact Hq|split; [exact Hr|reflexivity]]].
    destruct H as (st2 & H1 & H2).
    pose proof (go_grows _ _ _ _ H1) as Hg1. pose proof (go_grows _ _ _ _ H2) as Hg2.
    assert (Hin : In l (subs_of st i)).
    { apply list_elem_of_In. eapply list_elem_of_lookup_2. exact Hk. }
    assert (Hp2 : forall p, In p P -> emits p st2 = emits p st).
    { intros p HpP. pose proof (emits_grows p _ _ Hg1). pose proof (emits_grows p _ _ Hg2).
      specialize (Hp p HpP). lia. }
    destruct (IH _ _ _ H1 Hq Hr) as (Hq2 & Hr2 & Hv2).
    + intros d Hd HdQ. destruct (Hq i l d Hin Hd HdQ); destruct Ho; contradiction.
    + exact Hp2.
    + destruct (IH _ _ _ H2 Hq2 Hr2) as (Hq3 & Hr3 & Hv3).
      * exact Ho.
      * intros p HpP. rewrite (Hp p HpP). symmetry. apply Hp2. exact HpP.
      * split; [exact Hq3|split; [exact Hr3|]]. intros q HqQ.
        rewrite (Hv3 q HqQ). apply Hv2. exact HqQ.
  - apply go_run_inv in H. destruct H as (f' & Hf & H). injection Hf as <-.
    destruct l as [k|m d|b d|d].
    + subst st'. split; [exact Hq|split; [exact Hr|reflexivity]].
    + destruct (apply_mfun m v st) as [v' s] eqn:Ha.
      destruct (apply_mfun_frame _ _ _ _ _ Ha) as [Hc Hch].
      assert (Hqs : quiet_inv s) by (intros j l d'; unfold subs_of; rewrite Hc; apply Hq).
      assert (Hrs : in_range s) by (intros q Hin; rewrite Hc; apply Hr; exact Hin).
      destruct (IH _ _ _ H Hqs Hrs) as (Hq' & Hr' & Hv').
      * apply Ho. reflexivity.
      * intros p HpP. rewrite (Hp p HpP). unfold emits. rewrite Hch. reflexivity.
      * split; [exact Hq'|split; [exact Hr'|]]. intros q HqQ. rewrite (Hv' q HqQ).
        unfold value. rewrite Hc. reflexivity.
    + destruct (eval_bfun b v st) as [e s] eqn:He.
      destruct (eval_bfun_frame _ _ _ _ _ He) as (Hl & Hch & Hvs & Hss).
      destruct H as (st2 & H1 & ->).
      assert (Hqs : quiet_inv s) by (eapply quiet_frame; eauto).
      assert (Hrs : in_range s) by (apply Hrange; exact Hl).
      destruct (IH _ _ _ H1 Hqs Hrs) as (Hq2 & Hr2 & Hv2).
      * apply Ho. reflexivity.
      * intros p HpP. specialize (Hp p HpP). unfold emits in *. rewrite Hch, <- Hp.
        unfold subscribe. destruct (cells st2 !! e); reflexivity.
      * split; [|split].
        -- apply quiet_subscribe; [exact Hq2|]. intros d' Hd' HdQ.
           simpl in Hd'. injection Hd' as <-. exfalso. apply (Ho d); [reflexivity|exact HdQ].
        -- intros q Hin. rewrite length_subscribe. apply Hr2. exact Hin.
        -- intros q HqQ. rewrite value_subscribe, (Hv2 q HqQ). apply Hvs. apply Hr. exact HqQ.
    + destruct (IH _ _ _ H Hq Hr) as (Hq' & Hr' & Hv').
      * apply Ho. reflexivity.
      * exact Hp.
      * split; [exact Hq'|split; [exact Hr'|exact Hv']].
Qed.

(** Several outside sets, each on a container outside [Q]. *)
Fixpoint run_sets (fuel : nat) (ups : list (nat * val)) (st : store) : option store :=
  match ups with
  | [] => Some st
  | (i, v) :: ups' =>
    match set_ fuel i v st with
    | Some st1 => run_sets fuel ups' st1
    | None => None
    end
  end.

Lemma run_sets_grows (fuel : nat) : forall ups st st',
  run_sets fuel ups st = Some st' -> grows st st'.
Proof.
  induction ups as [|[i v] ups IH]; intros st st' H; simpl in H.
  - injection H as <-. apply grows_refl.
  - destruct (set_ fuel i v st) as [st1|] eqn:Hs; [|discriminate].
    eapply grows_trans; [exact (go_grows _ _ _ _ Hs)|exact (IH _ _ H)].
Qed.

Lemma quiet_run_sets (fuel : nat) : forall ups st st',
  run_sets fuel ups st = Some st' ->
  quiet_inv st -> in_range st ->
  Forall (fun u => ~ In (fst u) Q) ups ->
  (forall p, In p P -> emits p st' = emits p st) ->
  forall q, In q Q -> value q st' = value q st.
Proof.
  induction ups as [|[i v] ups IH]; intros st st' H Hq Hr Hout Hp q HqQ; simpl in H.
  - congruence.
  - destruct (set_ fuel i v st) as [st1|] eqn:Hs; [|discriminate].
    inversion Hout as [|? ? Hi Hout']; subst. simpl in Hi.
    pose proof (go_grows _ _ _ _ Hs) as Hg1. pose proof (run_sets_grows _ _ _ _ H) as Hg2.
    assert (Hp1 : forall p, In p P -> emits p st1 = emits p st).
    { intros p HpP. pose proof (emits_grows p _ _ Hg1). pose proof (emits_grows p _ _ Hg2).
      specialize (Hp p HpP). lia. }
    destruct (quiet_go _ _ _ _ Hs Hq Hr Hi Hp1) as (Hq1 & Hr1 & Hv1).
    rewrite <- (Hv1 q HqQ). eapply IH; eauto.
    intros p HpP. rewrite (Hp p HpP). symmetry. apply Hp1. exact HpP.
Qed.

End Quiet.

(** ** Well-formed stores: every subscription targets an existing container *)

Definition wf_dst (st : store) : Prop :=
  forall i l d, In l (subs_of st i) -> ldst l = Some d -> (d < length (cells st))%nat.

Definition bfun_ok (b : bfun) (st : store) : Prop :=
  match b with BConst e => (e < length (cells st))%nat | _ => True end.

Lemma signal_eq (v : val) (st st' : store) (d : nat) :
  signal v st = (d, st') -> d = length (cells st) /\ st' = snd (signal v st).
Proof. intros H. unfold signal in *. injection H as <- <-. split; reflexivity. Qed.

Lemma eval_bfun_wf (b : bfun) (v : val) (st s : store) (e : nat) :
  wf_dst st -> bfun_ok b st -> eval_bfun b v st = (e, s) ->
  wf_dst s /\ (e < length (cells s))%nat.
Proof.
  intros Hwf Hok He.
  destruct (eval_bfun_frame _ _ _ _ _ He) as (Hl & _ & _ & Hs).
  destruct b as [g|e0|curr]; unfold eval_bfun in He.
  - unfold effect in He. apply signal_eq in He. destruct He as [-> ->].
    split; [|rewrite length_signal; lia].
    intros i l d Hin Hd. rewrite subs_of_signal in Hin. rewrite length_signal.
    specialize (Hwf i l d Hin Hd). lia.
  - injection He as <- <-. split; assumption.
  - destruct (map_frame _ _ _ _ _ He) as (Hd & Hl' & _ & _ & Hs').
    split; [|lia].
    intros i l d Hin Hdl. destruct (Hs' i l Hin) as [Hin' | ->].
    + specialize (Hwf i l d Hin' Hdl). lia.
    + simpl in Hdl. injection Hdl as <-. lia.
Qed.

(** ** C10: the seed inner effect of bind *)

(** C10: in [m.bind(f)] the result [r] is seeded with the value of the inner
    effect [e0 = f(m.value())]; afterwards the only subscription targeting
    [r] is the one on [m] (no subscription on [e0]); so, as long as [m] does
    not emit, any later sets of [e0] leave [r] unchanged. *)
Theorem C10_bind_seed_inner_not_subscribed (st : store) (m : nat) (b : bfun)
    (e0 r : nat) (st1 : store) :
  wf_dst st -> (m < length (cells st))%nat -> bfun_ok b st ->
  bind_full m b st = (e0, r, st1) ->
  value r st1 = value e0 st1 /\
  (forall i l, In l (subs_of st1 i) -> ldst l = Some r -> i = m /\ l = LBind b r) /\
  (forall (fuel : nat) (vs : list val) (st' : store),
     run_sets fuel (map (fun v => (e0, v)) vs) st1 = Some st' ->
     emits m st' = emits m st1 ->
     value r st' = value r st1).
Proof.
  intros Hwf Hm Hok Hb. unfold bind_full in Hb.
  destruct (eval_bfun b (value m st) st) as [e s] eqn:He.
  destruct (eval_bfun_frame _ _ _ _ _ He) as (Hl & _ & _ & _).
  destruct (eval_bfun_wf _ _ _ _ _ Hwf Hok He) as [Hwfs Hes].
  destruct (effect (value e s) s) as [r' s2] eqn:Hr.
  unfold effect in Hr. apply signal_eq in Hr. destruct Hr as [-> ->].
  injection Hb as <- <- <-.
  assert (Hstruct : forall i l, In l (subs_of (subscribe m (LBind b (length (cells s)))
                          (snd (signal (value e s) s))) i) ->
                    ldst l = Some (length (cells s)) -> i = m /\ l = LBind b (length (cells s))).
  { intros i l Hin Hd. rewrite subs_of_subscribe, subs_of_signal in Hin.
    rewrite length_signal in Hin.
    destruct (decide (m = i)) as [<-|]; [destruct (decide _)|].
    - apply in_app_or in Hin. destruct Hin as [Hin|[<-|[]]].
      + specialize (Hwfs m l _ Hin Hd). lia.
      + split; reflexivity.
    - specialize (Hwfs m l _ Hin Hd). lia.
    - specialize (Hwfs i l _ Hin Hd). lia. }
  split; [|split; [exact Hstruct|]].
  - rewrite !value_subscribe.
    change (set_cells s (cells s ++ [mkcell (value e s) []])) with (snd (signal (value e s) s)).
    rewrite !value_signal.
    destruct (decide _); [|congruence]. destruct (decide _); [lia|reflexivity].
  - intros fuel vs st' Hrun Hem.
    eapply (quiet_run_sets [m] [length (cells s)] fuel); [exact Hrun| | | | |left; reflexivity].
    + intros i l d Hin Hd [<-|[]]. left. left. symmetry. apply (Hstruct i l Hin Hd).
    + intros q [<-|[]]. rewrite length_subscribe. simpl. rewrite length_app. simpl. lia.
    + apply List.Forall_forall. intros u Hu. apply in_map_iff in Hu.
      destruct Hu as (v & <- & _). simpl. intros [Heq|[]]. lia.
    + intros p [<-|[]]. exact Hem.
Qed.

Definition c10_store : store := snd (effect (VNum 0) (snd (effect (VNum 1) empty_store))).

Lemma C10_bind_seed_inner_not_subscribed_witness :
  wf_dst c10_store /\ (1 < length (cells c10_store))%nat /\ bfun_ok (BConst 0) c10_store /\
  bind_full 1 (BConst 0) c10_store = (0%nat, 2%nat, snd (bind_ 1 (BConst 0) c10_store)) /\
  match run_sets 50 [(0%nat, VNum 2)] (snd (bind_ 1 (BConst 0) c10_store)) with
  | Some st' => value 2 st' = VNum 1 /\ value 0 st' = VNum 2
  | None => False
  end.
Proof.
  assert (Hwf : wf_dst c10_store).
  { intros i l d Hin. unfold subs_of in Hin. vm_compute in Hin.
    destruct i as [|[|i]]; simpl in Hin; try contradiction.
    all: destruct i; contradiction. }
  assert (Hm : (1 < length (cells c10_store))%nat) by (vm_compute; lia).
  assert (Hok : bfun_ok (BConst 0) c10_store) by (vm_compute; lia).
  assert (Hb : bind_full 1 (BConst 0) c10_store = (0%nat, 2%nat, snd (bind_ 1 (BConst 0) c10_store)))
    by reflexivity.
  split; [exact Hwf|split; [exact Hm|split; [exact Hok|split; [exact Hb|]]]].
  destruct (C10_bind_seed_inner_not_subscribed _ _ _ _ _ _ Hwf Hm Hok Hb) as (Hseed & _ & Hlater).
  destruct (run_sets 50 [(0%nat, VNum 2)] _) as [st'|] eqn:E.
  - split.
    + rewrite (Hlater 50%nat [VNum 2] st' E); [|vm_compute in E; injection E as <-; reflexivity].
      rewrite Hseed. vm_compute. reflexivity.
    + vm_compute in E. injection E as <-. reflexivity.
  - vm_compute in E. discriminate.
Defined.

(** ** C7: sequence is a snapshot *)

Lemma heap_subscribe (st : store) (i : nat) (l : listener) :
  heap (subscribe i l st) = heap st.
Proof. unfold subscribe. destruct (cells st !! i); reflexivity. Qed.

Lemma map_snoc (c : nat) (arr : val) (st st' : store) (d : nat) :
  map_ c (MSnoc arr) st = (d, st') ->
  value d st' = VRef (length (heap st)) /\
  heap st' = heap st ++ [arr_elems arr st ++ [value c st]].
Proof.
  unfold map_, apply_mfun, alloc_array. intros H. simpl in H. injection H as <- <-.
  rewrite value_subscribe, heap_subscribe. split; [|reflexivity].
  unfold value. simpl. rewrite lookup_app_r by lia. rewrite Nat.sub_diag. reflexivity.
Qed.

Lemma bind_seq_step (acc curr : nat) (s s' : store) (r : nat) :
  bind_ acc (BSeq curr) s = (r, s') ->
  r = S (length (cells s)) /\
  length (cells s') = S (S (length (cells s))) /\
  arr_elems (value r s') s' = arr_elems (value acc s) s ++ [value curr s] /\
  (forall j, (j < length (cells s))%nat -> value j s' = value j s) /\
  (forall j l, In l (subs_of s' j) ->
     In l (subs_of s j) \/ (exists mm, l = LMap mm (length (cells s))) \/
     (j = acc /\ l = LBind (BSeq curr) (S (length (cells s))))).
Proof.
  unfold bind_, bind_full. intros H.
  destruct (eval_bfun (BSeq curr) (value acc s) s) as [e s1] eqn:He.
  unfold eval_bfun in He.
  destruct (map_frame _ _ _ _ _ He) as (Hd & Hl1 & _ & Hv1 & Hs1).
  destruct (map_snoc _ _ _ _ _ He) as (Hve & Hh1).
  destruct (effect (value e s1) s1) as [r' s2] eqn:Hr.
  unfold effect in Hr. apply signal_eq in Hr. destruct Hr as [-> Hs2].
  injection H as <- <-.
  split; [lia|]. split; [rewrite length_subscribe, Hs2, length_signal; lia|].
  split; [|split].
  - rewrite value_subscribe, Hs2, value_signal. destruct (decide _); [|congruence].
    rewrite Hve. unfold arr_elems at 1. rewrite heap_subscribe.
    unfold signal. simpl. rewrite Hh1. rewrite lookup_app_r by lia.
    rewrite Nat.sub_diag. reflexivity.
  - intros j Hj. rewrite value_subscribe, Hs2, value_signal.
    destruct (decide _); [lia|]. apply Hv1. exact Hj.
  - intros j l Hin. rewrite subs_of_subscribe, Hs2, subs_of_signal in Hin.
    destruct (decide (acc = j)) as [<-|]; [destruct (decide _)|].
    + apply in_app_or in Hin. destruct Hin as [Hin|[<-|[]]].
      * destruct (Hs1 _ _ Hin) as [Hin' | ->]; [left; exact Hin'|].
        right. left. exists (MSnoc (value acc s)). rewrite Hd. reflexivity.
      * right. right. split; [reflexivity|]. rewrite Hl1. reflexivity.
    + destruct (Hs1 _ _ Hin) as [Hin' | ->]; [left; exact Hin'|].
      right. left. exists (MSnoc (value acc s)). rewrite Hd. reflexivity.
    + destruct (Hs1 _ _ Hin) as [Hin' | ->]; [left; exact Hin'|].
      right. left. exists (MSnoc (value acc s)). rewrite Hd. reflexivity.
Qed.

Lemma sequence_fold (st0 : store) : forall (es : list nat) (acc : nat) (s : store)
    (Q : list nat) (xs : list val),
  wf_dst s -> In acc Q -> quiet_inv [] Q s -> in_range Q s ->
  (forall q, In q Q -> (length (cells st0) <= q)%nat) ->
  List.Forall (fun e => (e < length (cells st0))%nat) es ->
  (forall j, (j < length (cells st0))%nat -> value j s = value j st0) ->
  (length (cells st0) <= length (cells s))%nat ->
  arr_elems (value acc s) s = xs ->
  forall r s', fold_left (fun '(acc, s) curr => bind_ acc (BSeq curr) s) es (acc, s) = (r, s') ->
  exists Q', In r Q' /\ quiet_inv [] Q' s' /\ in_range Q' s' /\
    (forall q, In q Q' -> (length (cells st0) <= q)%nat) /\
    arr_elems (value r s') s' = xs ++ map (fun e => value e st0) es.
Proof.
  induction es as [|curr es IH]; intros acc s Q xs Hwf HaQ Hq Hr HQ0 Hes Hv0 Hl0 Hxs r s' Hf.
  - simpl in Hf. injection Hf as <- <-. exists Q.
    split; [exact HaQ|split; [exact Hq|split; [exact Hr|split; [exact HQ0|]]]].
    rewrite app_nil_r. exact Hxs.
  - simpl in Hf.
    destruct (bind_ acc (BSeq curr) s) as [r1 s1] eqn:Hb.
    apply List.Forall_cons_iff in Hes as [Hcurr Hes'].
    destruct (bind_seq_step _ _ _ _ _ Hb) as (-> & Hl1 & Harr & Hv1 & Hs1).
    destruct (IH (S (length (cells s))) s1 (S (length (cells s)) :: Q)
                (arr_elems (value acc s) s ++ [value curr st0])) with (r := r) (s' := s')
      as (Q' & HrQ & Hq' & Hr' & HQ' & Harr').
    + intros i l d Hin Hd. rewrite Hl1.
      destruct (Hs1 i l Hin) as [Hin' | [(mm & ->) | (-> & ->)]].
      * specialize (Hwf i l d Hin' Hd). lia.
      * simpl in Hd. injection Hd as <-. lia.
      * simpl in Hd. injection Hd as <-. lia.
    + left. reflexivity.
    + intros i l d Hin Hd HdQ.
      destruct (Hs1 i l Hin) as [Hin' | [(mm & ->) | (-> & ->)]].
      * destruct HdQ as [<-|HdQ].
        -- specialize (Hwf i l _ Hin' Hd). lia.
        -- destruct (Hq i l d Hin' Hd HdQ) as [[]|HiQ]. right. right. exact HiQ.
      * simpl in Hd. injection Hd as <-. destruct HdQ as [Heq|HdQ]; [lia|].
        specialize (Hr _ HdQ). lia.
      * right. right. exact HaQ.
    + intros q [<-|HqQ]; rewrite Hl1; [lia|]. specialize (Hr q HqQ). lia.
    + intros q [<-|HqQ]; [lia|]. apply HQ0. exact HqQ.
    + exact Hes'.
    + intros j Hj. rewrite Hv1 by lia. apply Hv0. exact Hj.
    + lia.
    + rewrite Harr. rewrite (Hv0 curr Hcurr). reflexivity.
    + exact Hf.
    + exists Q'. split; [exact HrQ|split; [exact Hq'|split; [exact Hr'|split; [exact HQ'|]]]].
      rewrite Harr', Hxs. rewrite <- app_assoc. reflexivity.
Qed.

(** C7: [sequence(es)] yields a container whose value is an array holding
    the values of [es] at call time, and later sets of any of the input
    effects leave the value of that result unchanged. *)
Theorem C7_sequence_snapshot (st : store) (es : list nat) (r : nat) (st1 : store) :
  wf_dst st ->
  List.Forall (fun e => (e < length (cells st))%nat) es ->
  sequence es st = (r, st1) ->
  arr_elems (value r st1) st1 = map (fun e => value e st) es /\
  (forall (fuel : nat) (ups : list (nat * val)) (st' : store),
     List.Forall (fun u => In (fst u) es) ups ->
     run_sets fuel ups st1 = Some st' ->
     value r st' = value r st1).
Proof.
  intros Hwf Hes Hseq. unfold sequence in Hseq.
  unfold alloc_array, pureEffect, signal in Hseq. simpl in Hseq.
  set (s0 := set_cells (mkstore (cells st) (heap st ++ [[]]) (changes st) (notes st))
               (cells st ++ [mkcell (VRef (length (heap st))) []])) in Hseq.
  assert (Hcells0 : cells s0 = cells st ++ [mkcell (VRef (length (heap st))) []]) by reflexivity.
  destruct (sequence_fold st es (length (cells st)) s0 [length (cells st)] []) with (r := r) (s' := st1)
    as (Q & HrQ & Hq & Hr & HQ & Harr).
  - intros i l d Hin Hd. unfold subs_of in Hin. rewrite Hcells0 in Hin.
    rewrite Hcells0, length_app. simpl.
    destruct (decide (i < length (cells st))%nat).
    + rewrite lookup_app_l in Hin by lia.
      assert (Hin' : In l (subs_of st i)) by (unfold subs_of; exact Hin).
      specialize (Hwf i l d Hin' Hd). lia.
    + rewrite lookup_app_r in Hin by lia.
      destruct (i - length (cells st))%nat; simpl in Hin; contradiction.
  - left. reflexivity.
  - intros i l d Hin Hd [<-|[]]. exfalso. unfold subs_of in Hin. rewrite Hcells0 in Hin.
    destruct (decide (i < length (cells st))%nat).
    + rewrite lookup_app_l in Hin by lia.
      assert (Hin' : In l (subs_of st i)) by (unfold subs_of; exact Hin).
      specialize (Hwf i l _ Hin' Hd). lia.
    + rewrite lookup_app_r in Hin by lia.
      destruct (i - length (cells st))%nat; simpl in Hin; contradiction.
  - intros q [<-|[]]. rewrite Hcells0, length_app. simpl. lia.
  - intros q [<-|[]]. lia.
  - exact Hes.
  - intros j Hj. unfold value. rewrite Hcells0. rewrite lookup_app_l by lia. reflexivity.
  - rewrite Hcells0, length_app. lia.
  - unfold value, arr_elems. rewrite Hcells0. rewrite lookup_app_r by lia.
    rewrite Nat.sub_diag. simpl. rewrite lookup_app_r by lia. rewrite Nat.sub_diag. reflexivity.
  - exact Hseq.
  - split; [exact Harr|].
    intros fuel ups st' Hups Hrun.
    eapply (quiet_run_sets [] Q fuel); [exact Hrun|exact Hq|exact Hr| | |exact HrQ].
    + rewrite List.Forall_forall in Hups |- *. intros u Hu HuQ.
      specialize (Hups u Hu). rewrite List.Forall_forall in Hes.
      specialize (Hes _ Hups). specialize (HQ _ HuQ). lia.
    + intros p [].
Qed.

Definition c7_store : store :=
  snd (effect (VNum 3) (snd (effect (VNum 2) (snd (effect (VNum 1) empty_store))))).

Lemma C7_sequence_snapshot_witness :
  wf_dst c7_store /\
  List.Forall (fun e => (e < length (cells c7_store))%nat) [0%nat; 1%nat; 2%nat] /\
  arr_elems (value (fst (sequence [0%nat; 1%nat; 2%nat] c7_store))
                   (snd (sequence [0%nat; 1%nat; 2%nat] c7_store)))
            (snd (sequence [0%nat; 1%nat; 2%nat] c7_store)) = [VNum 1; VNum 2; VNum 3] /\
  match run_sets 50 [(0%nat, VNum 10); (2%nat, VNum 30)] (snd (sequence [0%nat; 1%nat; 2%nat] c7_store)) with
  | Some st' => value (fst (sequence [0%nat; 1%nat; 2%nat] c7_store)) st' =
                value (fst (sequence [0%nat; 1%nat; 2%nat] c7_store)) (snd (sequence [0%nat; 1%nat; 2%nat] c7_store))
                /\ value 0 st' = VNum 10
  | None => False
  end.
Proof.
  assert (Hwf : wf_dst c7_store).
  { intros i l d Hin. unfold subs_of in Hin. vm_compute in Hin.
    destruct i as [|[|[|i]]]; simpl in Hin; try contradiction. }
  assert (Hes : List.Forall (fun e => (e < length (cells c7_store))%nat) [0%nat; 1%nat; 2%nat]).
  { repeat apply List.Forall_cons; try apply List.Forall_nil; vm_compute; lia. }
  assert (Hs : sequence [0%nat; 1%nat; 2%nat] c7_store =
               (fst (sequence [0%nat; 1%nat; 2%nat] c7_store), snd (sequence [0%nat; 1%nat; 2%nat] c7_store)))
    by apply surjective_pairing.
  destruct (C7_sequence_snapshot _ _ _ _ Hwf Hes Hs) as [Harr Hlater].
  split; [exact Hwf|split; [exact Hes|split]].
  - rewrite Harr. reflexivity.
  - destruct (run_sets 50 _ _) as [st'|] eqn:E.
    + split.
      * apply (Hlater 50%nat [(0%nat, VNum 10); (2%nat, VNum 30)] st'); [|exact E].
        repeat apply List.Forall_cons; try apply List.Forall_nil; simpl; tauto.
      * vm_compute in E. injection E as <-. reflexivity.
    + vm_compute in E. discriminate.
Defined.

(** ** C5: left identity of bind *)

(** [e = effect(1)], [a = pureEffect(0)], [f = _ => e], [r = a.bind(f)]. *)
Definition c5_before : store :=
  snd (bind_ 1 (BConst 0) (snd (pureEffect (VNum 0) (snd (effect (VNum 1) empty_store))))).

(** C5: for [f = _ => e] with [e = effect(1)], [pure(0).bind(f).value()]
    equals [f(0).value()] right after the bind, but once [e] is set to 2,
    [f(0).value()] is 2 while [pure(0).bind(f).value()] stays 1: the seed
    inner effect is never subscribed, so left identity fails at that instant. *)
Theorem C5_left_identity_fails_after_inner_update :
  fst (bind_ 1 (BConst 0) (snd (pureEffect (VNum 0) (snd (effect (VNum 1) empty_store))))) = 2%nat /\
  value 2 c5_before = value (fst (eval_bfun (BConst 0) (value 1 c5_before) c5_before)) c5_before /\
  match set_ 50 0 (VNum 2) c5_before with
  | Some st' =>
      value (fst (eval_bfun (BConst 0) (value 1 st') st')) st' = VNum 2 /\
      value 2 st' = VNum 1
  | None => False
  end.
Proof. vm_compute. repeat split. Qed.

(** ** The finite state machine [fsm]

    The closure state of [fsm(initialState, transitions)]: [currentState],
    the [subscribers] set (subscriber identities, in insertion order) and
    the log of calls [fn(currentState)] made by [notify].  A guard
    [() => boolean] is modelled by the boolean it returns. *)

Section Fsm.
Variable A : Type.
(** [===] on actions. *)
Variable A_eqb : A -> A -> bool.

Record Transition := mkTransition {
  from : string;
  to : string;
  on : A;
  guard : option bool
}.

Record FSM := mkFSM {
  currentState : string;
  transitions : list Transition;
  subscribers : list nat;
  notified : list (nat * string)
}.

Definition fsm (initialState : string) (ts : list Transition) : FSM :=
  mkFSM initialState ts [] [].

(** [t.from === currentState && t.on === action && (!t.guard || t.guard())]. *)
Definition row_matches (m : FSM) (action : A) (t : Transition) : bool :=
  String.eqb (from t) (currentState m) && A_eqb (on t) action &&
  match guard t with None => true | Some g => g end.

(** [transitions.find(...)]. *)
Definition getTransition (m : FSM) (action : A) : option Transition :=
  List.find (row_matches m action) (transitions m).

(** [subscribers.forEach(fn => fn(currentState))]. *)
Definition notify (m : FSM) : FSM :=
  mkFSM (currentState m) (transitions m) (subscribers m)
        (notified m ++ map (fun fn => (fn, currentState m)) (subscribers m)).

Definition send (m : FSM) (action : A) : FSM :=
  match getTransition m action with
  | Some t => notify (mkFSM (to t) (transitions m) (subscribers m) (notified m))
  | None => m
  end.

Definition can (m : FSM) (action : A) : bool :=
  match getTransition m action with Some _ => true | None => false end.

(** [subscribers.add(fn)]. *)
Definition fsm_subscribe (m : FSM) (fn : nat) : FSM :=
  mkFSM (currentState m) (transitions m)
        (if existsb (Nat.eqb fn) (subscribers m) then subscribers m else subscribers m ++ [fn])
        (notified m).

End Fsm.

Arguments mkTransition {A}.
Arguments from {A}.
Arguments to {A}.
Arguments on {A}.
Arguments guard {A}.
Arguments mkFSM {A}.
Arguments currentState {A}.
Arguments transitions {A}.
Arguments subscribers {A}.
Arguments notified {A}.
Arguments fsm {A}.
Arguments row_matches {A} A_eqb.
Arguments getTransition {A} A_eqb.
Arguments notify {A}.
Arguments send {A} A_eqb.
Arguments can {A} A_eqb.
Arguments fsm_subscribe {A}.

(** ** C8: sending an action with no matching row *)

(** C8: if no transition row matches the current state, the action and its
    optional guard, [send(action)] leaves the machine unchanged: same
    [current], and no subscriber is called. *)
Theorem C8_send_no_match_is_noop {A : Type} (A_eqb : A -> A -> bool)
    (m : FSM A) (action : A) :
  getTransition A_eqb m action = None ->
  send A_eqb m action = m /\
  currentState (send A_eqb m action) = currentState m /\
  notified (send A_eqb m action) = notified m.
Proof.
  intros H. unfold send. rewrite H. split; [reflexivity|split; reflexivity].
Qed.

Definition c8_machine : FSM string :=
  fsm_subscribe (fsm "idle" [mkTransition "idle" "loading" "start" None]) 0.

Lemma C8_send_no_match_is_noop_witness :
  getTransition String.eqb c8_machine "bogus" = None /\
  currentState (send String.eqb c8_machine "bogus") = "idle" /\
  length (notified (send String.eqb c8_machine "bogus")) = 0%nat /\
  length (subscribers c8_machine) = 1%nat.
Proof.
  assert (H : getTransition String.eqb c8_machine "bogus" = None) by reflexivity.
  destruct (C8_send_no_match_is_noop String.eqb c8_machine "bogus" H) as (_ & Hc & Hn).
  split; [exact H|split; [|split]].
  - rewrite Hc. reflexivity.
  - rewrite Hn. reflexivity.
  - reflexivity.
Defined.

(** ** [time(...).timeout(ms)]

    The state of one [t.timeout(ms)] call: the value of the source [t]
    ([baseEffect]), the value of [timedOut], the closure flag
    [hasCompleted], whether the one-shot timer is still pending, and the
    heap location the next [new Error(...)] object gets. *)

Record TimeoutState := mkTO {
  src : val;
  out : val;
  hasCompleted : bool;
  timerPending : bool;
  nextRef : nat
}.

(** [const timedOut = time(baseEffect.value()); let hasCompleted = false;
     const timeoutId = setTimeout(...)]. *)
Definition timeout_new (v0 : val) (next : nat) : TimeoutState :=
  mkTO v0 v0 false true next.

(** The resulting value of [_set(v)] on a container holding [cur]. *)
Definition js_set (cur v : val) : val := if strict_eqb v cur then cur else v.

Inductive tevent : Type :=
| EEmit (v : val)   (* [t._set(v)] *)
| ETimer.           (* the timer of [setTimeout] fires *)

Definition timeout_step (s : TimeoutState) (e : tevent) : TimeoutState :=
  match e with
  | EEmit v =>
      if strict_eqb v (src s) then s
      else if hasCompleted s then mkTO v (out s) true (timerPending s) (nextRef s)
      (* [hasCompleted = true; clearTimeout(timeoutId); timedOut._set(newValue)] *)
      else mkTO v (js_set (out s) v) true false (nextRef s)
  | ETimer =>
      if timerPending s then
        if hasCompleted s then mkTO (src s) (out s) true false (nextRef s)
        (* [timedOut._set(new Error(...))]; [hasCompleted] is left unchanged *)
        else mkTO (src s) (js_set (out s) (VRef (nextRef s))) false false (S (nextRef s))
      else s
  end.

Definition run_events (s : TimeoutState) (es : list tevent) : TimeoutState :=
  fold_left timeout_step es s.

Lemma strict_eqb_not_ref (v : val) (n : nat) :
  (forall l, v <> VRef l) -> strict_eqb v (VRef n) = false.
Proof. intros H. destruct v; try reflexivity. exfalso. exact (H loc eq_refl). Qed.

Lemma timeout_completed_frozen : forall es s,
  hasCompleted s = true -> timerPending s = false ->
  out (run_events s es) = out s.
Proof.
  induction es as [|e es IH]; intros s Hc Ht; [reflexivity|].
  change (run_events s (e :: es)) with (run_events (timeout_step s e) es).
  destruct s as [sv ov hc tp nr]; simpl in Hc, Ht; subst hc tp.
  destruct e as [v|]; simpl.
  - destruct (strict_eqb v sv); apply IH; reflexivity.
  - apply IH; reflexivity.
Qed.

(** ** C2: timeout resolves at most once? *)

(** C2: when the source emits first, the result holds the emitted value and
    never changes afterwards; but when the timer fires first, the result
    holds the [Error] and a later emission [v] of the source (a primitive
    different from the initial value) still overwrites it with [v], because
    the timer callback never sets [hasCompleted]. *)
Theorem C2_timeout_timer_first_not_terminal (v0 v : val) (n : nat) :
  strict_eqb v v0 = false -> (forall l, v <> VRef l) ->
  (forall es, out (run_events (timeout_new v0 n) (EEmit v :: es)) = v) /\
  out (run_events (timeout_new v0 n) [ETimer]) = VRef n /\
  out (run_events (timeout_new v0 n) [ETimer; EEmit v]) = v.
Proof.
  intros Hne Hnr. split; [|split].
  - intros es. simpl. rewrite Hne. simpl.
    rewrite timeout_completed_frozen by reflexivity. simpl.
    unfold js_set. rewrite Hne. reflexivity.
  - simpl. unfold js_set.
    destruct (strict_eqb (VRef n) v0) eqn:E; [|reflexivity].
    symmetry. apply strict_eqb_eq. exact E.
  - assert (H1 : js_set v0 (VRef n) = VRef n).
    { unfold js_set. destruct (strict_eqb (VRef n) v0) eqn:E; [|reflexivity].
      symmetry. apply strict_eqb_eq. exact E. }
    simpl. rewrite H1. simpl. rewrite Hne. unfold js_set.
    rewrite strict_eqb_not_ref by exact Hnr. reflexivity.
Qed.

Lemma C2_timeout_timer_first_not_terminal_witness :
  out (run_events (timeout_new (VNum 0) 0) [ETimer]) = VRef 0 /\
  out (run_events (timeout_new (VNum 0) 0) [ETimer; EEmit (VNum 1)]) = VNum 1.
Proof.
  assert (Hne : strict_eqb (VNum 1) (VNum 0) = false) by reflexivity.
  assert (Hnr : forall l, VNum 1 <> VRef l) by (intros l H; discriminate H).
  destruct (C2_timeout_timer_first_not_terminal (VNum 0) (VNum 1) 0 Hne Hnr) as (_ & H1 & H2).
  split; [exact H1|exact H2].
Defined.

(** ** JavaScript builtins used by [cache]

    [parseInt(s)]: leading white space, an optional sign, then the longest
    prefix of decimal digits; [None] is [NaN] (no digit).  [JSON.parse] is
    given for integer JSON texts ([None]: it throws). *)

Definition digit_of (a : ascii) : option Z :=
  let n := Z.of_nat (nat_of_ascii a) in
  if (48 <=? n) && (n <=? 57) then Some (n - 48) else None.

Definition is_ws (a : ascii) : bool :=
  let n := nat_of_ascii a in Nat.eqb n 32 || Nat.eqb n 9 || Nat.eqb n 10 || Nat.eqb n 13.

Fixpoint skip_ws (s : string) : string :=
  match s with
  | String a s' => if is_ws a then skip_ws s' else s
  | EmptyString => EmptyString
  end.

Fixpoint take_digits (s : string) (acc : option Z) : option Z * string :=
  match s with
  | EmptyString => (acc, EmptyString)
  | String a s' =>
      match digit_of a with
      | Some d => take_digits s' (Some (match acc with Some x => x * 10 + d | None => d end))
      | None => (acc, s)
      end
  end.

Definition parseInt (s : string) : option Z :=
  match skip_ws s with
  | String "-"%char s' => option_map Z.opp (fst (take_digits s' None))
  | String "+"%char s' => fst (take_digits s' None)
  | s' => fst (take_digits s' None)
  end.

(** An integer JSON text: optional [-], digits without a leading zero,
    surrounding white space. *)
Definition json_parse_int (s : string) : option Z :=
  let unsigned (t : string) :=
    match t with
    | String "0"%char (String _ _) => None
    | _ =>
      match take_digits t None with
      | (Some z, rest) => if String.eqb (skip_ws rest) EmptyString then Some z else None
      | (None, _) => None
      end
    end in
  match skip_ws s with
  | String "-"%char t => option_map Z.opp (unsigned t)
  | t => unsigned t
  end.

(** ** [fetch], [retry] and [cache] on an event loop

    A world holds the [Fetch] containers (fresh object literals are always
    [!==], so every [_set] stores and notifies), the number of invocations
    of [fetcher] so far, the microtask queue, the pending timers with their
    due times, the log of [setTimeout] delays, the clock [Date.now()],
    [localStorage] and the log of every [_set] (newest first).
    [fetcher] is the outcome of each invocation, by invocation index; its
    promise is already settled, so the code after [await fetcher()] runs as
    a microtask.  [deps] is empty. *)

Section Fetch.
Variable D E : Type.
(** Truthiness of a present [state.data]. *)
Variable truthy : D -> bool.
(** [JSON.stringify] and [JSON.parse] ([None]: it throws). *)
Variable stringify : D -> string.
Variable json_parse : string -> option D.

Inductive fres : Type := FOk (d : D) | FFail (e : E).
Variable fetcher : nat -> fres.

Record AsyncState := mkAS { data : option D; loading : bool; error : option E }.

(** The only subscriber the code installs on a [Fetch]: the one of [cache]
    on a miss, with the index of [cached] and the key. *)
Inductive flistener : Type := LCache (cached : nat) (key : string).

Record fcell := mkfcell { fcur : AsyncState; fsubs : list flistener }.

Inductive task : Type :=
| KExec (target : nat) (k : nat)                (* [executeFetch] after [await fetcher()] *)
| KAttempt (target : nat) (n attemptsLeft : Z) (k : nat) (* [attemptFetch] after [await fetcher()] *)
| TAttempt (target : nat) (n attemptsLeft : Z).         (* [() => attemptFetch(attemptsLeft - 1)] *)

Record world := mkworld {
  fcells : list fcell;
  calls : nat;
  micro : list task;
  timers : list (Z * task);
  delays : list Z;
  now : Z;
  storage : list (string * string);
  fsets : list (nat * AsyncState)
}.

Definition fvalue (i : nat) (w : world) : option AsyncState := fcur <$> (fcells w !! i).

Definition getItem (k : string) (w : world) : option string :=
  snd <$> List.find (fun p => String.eqb (fst p) k) (storage w).

Definition setItem (k v : string) (w : world) : world :=
  mkworld (fcells w) (calls w) (micro w) (timers w) (delays w) (now w)
          ((k, v) :: List.filter (fun p => negb (String.eqb (fst p) k)) (storage w)) (fsets w).

Definition store_fcell (i : nat) (c : fcell) (v : AsyncState) (w : world) : world :=
  mkworld (<[i := mkfcell v (fsubs c)]> (fcells w)) (calls w) (micro w) (timers w)
          (delays w) (now w) (storage w) ((i, v) :: fsets w).

(** [if (state.data && !state.loading && !state.error) { setItem...; setItem... }]. *)
Definition cache_write (key : string) (v : AsyncState) (w : world) : world :=
  match data v, loading v, error v with
  | Some d, false, None =>
      if truthy d then
        setItem ("fetch_cache_time_" ++ key) (pretty (now w))
                (setItem ("fetch_cache_" ++ key) (stringify d) w)
      else w
  | _, _, _ => w
  end.

(** [_set(v)]: store, then call the subscribers in order. *)
Fixpoint fset (fuel : nat) (i : nat) (v : AsyncState) (w : world) : option world :=
  match fuel with
  | O => None
  | S f =>
    match fcells w !! i with
    | None => Some w
    | Some c =>
      (fix run (ls : list flistener) (w : world) : option world :=
         match ls with
         | [] => Some w
         | LCache cached key :: ls' =>
             match fset f cached v (cache_write key v w) with
             | Some w' => run ls' w'
             | None => None
             end
         end) (fsubs c) (store_fcell i c v w)
    end
  end.

(** [fetcher()]: count the invocation and queue the continuation. *)
Definition invoke (cont : nat -> task) (w : world) : world :=
  mkworld (fcells w) (S (calls w)) (micro w ++ [cont (calls w)]) (timers w)
          (delays w) (now w) (storage w) (fsets w).

Definition loadingState : AsyncState := mkAS None true None.

Definition executeFetch (fuel : nat) (target : nat) (w : world) : option world :=
  invoke (KExec target) <$> fset fuel target loadingState w.

Definition attemptFetch (fuel : nat) (target : nat) (n attemptsLeft : Z) (w : world) : option world :=
  invoke (KAttempt target n attemptsLeft) <$> fset fuel target loadingState w.

(** [setTimeout(cb, delay)]. *)
Definition setTimeout (t : task) (delay : Z) (w : world) : world :=
  mkworld (fcells w) (calls w) (micro w) (timers w ++ [(now w + delay, t)])
          (delays w ++ [delay]) (now w) (storage w) (fsets w).

Definition run_task (fuel : nat) (t : task) (w : world) : option world :=
  match t with
  | KExec target k =>
      match fetcher k with
      | FOk d => fset fuel target (mkAS (Some d) false None) w
      | FFail e => fset fuel target (mkAS None false (Some e)) w
      end
  | KAttempt target n attemptsLeft k =>
      match fetcher k with
      | FOk d => fset fuel target (mkAS (Some d) false None) w
      | FFail e =>
          if 0 <? attemptsLeft then Some (setTimeout (TAttempt target n (attemptsLeft - 1)) (2 ^ (n - attemptsLeft) * 1000) w)
          else fset fuel target (mkAS None false (Some e)) w
      end
  | TAttempt target n attemptsLeft => attemptFetch fuel target n attemptsLeft w
  end.

(** The timer due first (the earliest one among equal due times). *)
Fixpoint pick_timer (ts : list (Z * task)) : option (Z * task * list (Z * task)) :=
  match ts with
  | [] => None
  | (d, t) :: ts' =>
      match pick_timer ts' with
      | Some (d', t', rest) => if d' <? d then Some (d', t', (d, t) :: rest) else Some (d, t, ts')
      | None => Some (d, t, ts')
      end
  end.

(** The event loop: all microtasks first, then the next timer. *)
Fixpoint drain (fuel : nat) (w : world) : option world :=
  match fuel with
  | O => None
  | S f =>
    match micro w with
    | t :: ts =>
        run_task f t (mkworld (fcells w) (calls w) ts (timers w) (delays w) (now w) (storage w) (fsets w))
          ≫= drain f
    | [] =>
        match pick_timer (timers w) with
        | Some (due, t, rest) =>
            run_task f t (mkworld (fcells w) (calls w) [] rest (delays w) (Z.max (now w) due)
                                  (storage w) (fsets w))
              ≫= drain f
        | None => Some w
        end
    end
  end.

(** [fetch(fetcher)]: a container holding [{loading: true}], then
    [executeFetch(fetchInstance)]. *)
Definition fetch (fuel : nat) (w : world) : option (nat * world) :=
  let i := length (fcells w) in
  let w1 := mkworld (fcells w ++ [mkfcell loadingState []]) (calls w) (micro w) (timers w)
                    (delays w) (now w) (storage w) (fsets w) in
  pair i <$> executeFetch fuel i w1.

(** [retry(n)]: [retryFetch = fetch(fetcher, deps)], then [attemptFetch(n)]. *)
Definition retry (fuel : nat) (n : Z) (w : world) : option (nat * world) :=
  fetch fuel w ≫= fun '(r, w1) => pair r <$> attemptFetch fuel r n n w1.

(** [this.cache(key, ttl)] on the instance [self]. *)
Definition cache (fuel : nat) (self : nat) (key : string) (ttl : Z) (w : world)
    : option (nat * world) :=
  fetch fuel w ≫= fun '(c, w1) =>
  let miss := Some (c, match fcells w1 !! self with
                       | Some cl => mkworld (<[self := mkfcell (fcur cl) (fsubs cl ++ [LCache c key])]> (fcells w1))
                                            (calls w1) (micro w1) (timers w1) (delays w1) (now w1)
                                            (storage w1) (fsets w1)
                       | None => w1
                       end) in
  match getItem ("fetch_cache_" ++ key) w1, getItem ("fetch_cache_time_" ++ key) w1 with
  | Some cd, Some ct =>
      if negb (String.eqb cd EmptyString) && negb (String.eqb ct EmptyString) then
        match parseInt ct with
        | Some t =>
            if now w1 - t <? ttl then
              match json_parse cd with
              | Some d => pair c <$> fset fuel c (mkAS (Some d) false None) w1
              | None => miss
              end
            else miss
        | None => miss
        end
      else miss
  | _, _ => miss
  end.

End Fetch.

Arguments FOk {D E}.
Arguments FFail {D E}.
Arguments mkAS {D E}.
Arguments data {D E}.
Arguments loading {D E}.
Arguments error {D E}.
Arguments mkfcell {D E}.
Arguments fcur {D E}.
Arguments fsubs {D E}.
Arguments mkworld {D E}.
Arguments fcells {D E}.
Arguments calls {D E}.
Arguments micro {D E}.
Arguments timers {D E}.
Arguments delays {D E}.
Arguments now {D E}.
Arguments storage {D E}.
Arguments fsets {D E}.
Arguments fvalue {D E}.
Arguments loadingState {D E}.
Arguments fetch {D E}.
Arguments retry {D E}.
Arguments cache {D E}.
Arguments drain {D E}.

(** Integer payloads and string errors. *)
Definition truthy_Z (z : Z) : bool := negb (z =? 0).
Definition stringify_Z (z : Z) : string := pretty z.

Definition world0 (t : Z) (ls : list (string * string)) : world Z string :=
  mkworld [] 0 [] [] [] t ls [].

Definition sets_of {D E : Type} (i : nat) (w : world D E) : list (AsyncState D E) :=
  rev (map snd (List.filter (fun p => Nat.eqb (fst p) i) (fsets w))).

(** [const f = fetch(() => Promise.reject(new Error("boom"))); const r = f.retry(2)],
    then the event loop runs to completion. *)
Definition always_fail : nat -> fres Z string := fun _ => FFail "boom".

Definition c1_run : option (nat * world Z string * world Z string) :=
  fetch truthy_Z stringify_Z 10 (world0 0 []) ≫= fun '(_, w1) =>
  retry truthy_Z stringify_Z 10 2 w1 ≫= fun '(r, w2) =>
  drain truthy_Z stringify_Z always_fail 100 w2 ≫= fun w3 => Some (r, w1, w3).

(** [localStorage] holds [42] for key [k], stored at time 1000; at time
    1500, [f = fetch(() => Promise.resolve(7))] and [c = f.cache("k")]. *)
Definition always_7 : nat -> fres Z string := fun _ => FOk 7.

Definition c6_storage : list (string * string) :=
  [("fetch_cache_k", "42"); ("fetch_cache_time_k", "1000")].

Definition c6_run : option (nat * world Z string * world Z string * world Z string) :=
  fetch truthy_Z stringify_Z 10 (world0 1500 c6_storage) ≫= fun '(f, w1) =>
  cache truthy_Z stringify_Z json_parse_int 10 f "k" 300000 w1 ≫= fun '(c, w2) =>
  drain truthy_Z stringify_Z always_7 100 w2 ≫= fun w3 => Some (c, w1, w2, w3).

(** ** C1: retry of an always failing fetcher *)

(** C1: with a fetcher that always rejects, [f.retry(2)] ends in
    [{data: undefined, loading: false, error}] after backoff delays of 1000
    and 2000 ms, but the fetcher is invoked 5 times in total, 4 of them by
    [retry] (and not 3): [retryFetch = fetch(fetcher, deps)] runs its own
    [executeFetch], which invokes the fetcher and also sets [retryFetch] to
    a final-looking error state before the first retry. *)
Theorem C1_retry_always_failing_invocations :
  match c1_run with
  | Some (r, w1, w3) =>
      fvalue r w3 = Some (mkAS None false (Some "boom")) /\
      delays w3 = [1000; 2000] /\
      calls w3 = 5%nat /\
      (calls w3 - calls w1)%nat = 4%nat /\
      sets_of r w3 =
        [loadingState; loadingState; mkAS None false (Some "boom");
         loadingState; loadingState; mkAS None false (Some "boom")]
  | None => False
  end.
Proof. vm_compute. repeat split. Qed.

(** ** C6: cache hit *)

(** C6: on a cache hit ([42] stored at time 1000, read at time 1500 with
    the default ttl) [f.cache("k")] returns a [Fetch] holding
    [{data: 42, loading: false}], but the fetcher has been invoked once on
    that path (by [cached = fetch(fetcher, deps)]), and once that call
    settles its result [7] replaces the cached data. *)
Theorem C6_cache_hit_invokes_fetcher :
  match c6_run with
  | Some (c, w1, w2, w3) =>
      fvalue c w2 = Some (mkAS (Some 42) false None) /\
      (calls w2 - calls w1)%nat = 1%nat /\
      fvalue c w3 = Some (mkAS (Some 7) false None)
  | None => False
  end.
Proof. vm_compute. repeat split. Qed.

(** ** More of the state algebra: [fsm]'s unsubscribe, [machine] *)


(** [machine(initialState, reducer)]: the closure state. *)
Section Machine.
Variables St A : Type.
(** [===] on states. *)
Variable S_eqb : St -> St -> bool.
Variable reducer : St -> A -> St.

Record StateMachine := mkMachine {
  mstate : St;
  msubscribers : list nat;
  mnotified : list (nat * St)
}.

Definition machine (initialState : St) : StateMachine := mkMachine initialState [] [].

(** [const newState = reducer(currentState, action);
     if (newState !== currentState) { currentState = newState; notify(); }]. *)
Definition msend (m : StateMachine) (action : A) : StateMachine :=
  let newState := reducer (mstate m) action in
  if negb (S_eqb newState (mstate m)) then
    mkMachine newState (msubscribers m)
              (mnotified m ++ map (fun fn => (fn, newState)) (msubscribers m))
  else m.

Definition msubscribe (m : StateMachine) (fn : nat) : StateMachine :=
  mkMachine (mstate m)
            (if existsb (Nat.eqb fn) (msubscribers m) then msubscribers m else msubscribers m ++ [fn])
            (mnotified m).

(** A sequence of [send] calls. *)
Definition msend_all (m : StateMachine) (actions : list A) : StateMachine :=
  fold_left msend actions m.

(** How many of these calls change the state. *)
Fixpoint changes_count (s : St) (actions : list A) : nat :=
  match actions with
  | [] => 0
  | a :: rest =>
      if negb (S_eqb (reducer s a) s) then S (changes_count (reducer s a) rest)
      else changes_count (reducer s a) rest
  end.

End Machine.

Arguments mkMachine {St}.
Arguments mstate {St}.
Arguments msubscribers {St}.
Arguments mnotified {St}.
Arguments machine {St}.
Arguments msend {St A} S_eqb reducer.
Arguments msubscribe {St}.
Arguments msend_all {St A} S_eqb reducer.
Arguments changes_count {St A} S_eqb reducer.

(** ** Extra properties of [fsm] and [machine] *)

(** [fsm.send] takes the first row, in table order, whose [from] is the
    current state, whose [on] is the action and whose guard is absent or
    passes.  The machine moves to that row's [to] and every subscriber is
    called once with it, in subscription order, also when [to] equals the
    current state. *)
Theorem fsm_send_first_matching_row {A : Type} (A_eqb : A -> A -> bool)
    (m : FSM A) (action : A) (pre post : list (Transition A)) (t : Transition A) :
  transitions m = pre ++ t :: post ->
  (forall r, In r pre ->
     from r <> currentState m \/ A_eqb (on r) action = false \/ guard r = Some false) ->
  from t = currentState m -> A_eqb (on t) action = true -> guard t <> Some false ->
  currentState (send A_eqb m action) = to t /\
  notified (send A_eqb m action) =
    notified m ++ map (fun fn => (fn, to t)) (subscribers m).
Proof.
  intros Ht Hpre Hf Ho Hg.
  assert (Hfind : getTransition A_eqb m action = Some t).
  { unfold getTransition. rewrite Ht.
    assert (Hrow : row_matches A_eqb m action t = true).
    { unfold row_matches. rewrite Hf, String.eqb_refl, Ho. simpl.
      destruct (guard t) as [[|]|]; [reflexivity|congruence|reflexivity]. }
    clear Ht. induction pre as [|r pre IH]; simpl.
    - rewrite Hrow. reflexivity.
    - assert (Hr : row_matches A_eqb m action r = false).
      { unfold row_matches.
        destruct (Hpre r (or_introl eq_refl)) as [Hne|[Hne|Hne]].
        - apply String.eqb_neq in Hne. rewrite Hne. reflexivity.
        - rewrite Hne, andb_false_r. reflexivity.
        - rewrite Hne, andb_false_r. reflexivity. }
      rewrite Hr. apply IH. intros r' Hr'. apply Hpre. right. exact Hr'. }
  unfold send. rewrite Hfind. simpl. split; reflexivity.
Qed.

Definition fsm_example : FSM string :=
  fsm_subscribe
    (fsm "idle" [mkTransition "idle" "loading" "start" (Some false);
                 mkTransition "idle" "idle" "start" None;
                 mkTransition "idle" "done" "start" None]) 7.

Lemma fsm_send_first_matching_row_witness :
  currentState (send String.eqb fsm_example "start") = "idle" /\
  notified (send String.eqb fsm_example "start") = [(7%nat, "idle")].
Proof.
  apply (fsm_send_first_matching_row String.eqb fsm_example "start"
           [mkTransition "idle" "loading" "start" (Some false)]
           [mkTransition "idle" "done" "start" None]
           (mkTransition "idle" "idle" "start" None)).
  - reflexivity.
  - intros r [<-|[]]. right. right. reflexivity.
  - reflexivity.
  - reflexivity.
  - discriminate.
Defined.



(** For a [machine] whose reducer result is compared by a sound [===],
    after any sequence of [send] calls the state is the left fold of the
    reducer over the actions, and each subscriber has been called once per
    call that changed the state (calls that give back an identical state
    notify nobody). *)
Theorem machine_send_all_fold {St A : Type} (S_eqb : St -> St -> bool) (reducer : St -> A -> St)
    (m : StateMachine St) (actions : list A) :
  (forall x y, S_eqb x y = true -> x = y) ->
  mstate (msend_all S_eqb reducer m actions) = fold_left reducer actions (mstate m) /\
  length (mnotified (msend_all S_eqb reducer m actions)) =
    (length (mnotified m) + changes_count S_eqb reducer (mstate m) actions * length (msubscribers m))%nat /\
  msubscribers (msend_all S_eqb reducer m actions) = msubscribers m.
Proof.
  intros Hsound. revert m. induction actions as [|a rest IH]; intros m.
  - simpl. split; [reflexivity|split; [lia|reflexivity]].
  - unfold msend_all in *. simpl.
    destruct (S_eqb (reducer (mstate m) a) (mstate m)) eqn:E.
    + pose proof (Hsound _ _ E) as Heq.
      assert (Hm : msend S_eqb reducer m a = m) by (unfold msend; rewrite E; reflexivity).
      rewrite Hm. destruct (IH m) as (H1 & H2 & H3). rewrite H1, Heq.
      split; [reflexivity|split; [|exact H3]].
      rewrite H2. rewrite <- Heq at 2. reflexivity.
    + assert (Hm : msend S_eqb reducer m a =
                   mkMachine (reducer (mstate m) a) (msubscribers m)
                     (mnotified m ++ map (fun fn => (fn, reducer (mstate m) a)) (msubscribers m)))
        by (unfold msend; rewrite E; reflexivity).
      rewrite Hm. destruct (IH (mkMachine (reducer (mstate m) a) (msubscribers m)
                   (mnotified m ++ map (fun fn => (fn, reducer (mstate m) a)) (msubscribers m))))
        as (H1 & H2 & H3).
      simpl in H1, H2, H3.
      split; [exact H1|split; [|exact H3]]. rewrite H2. simpl.
      rewrite length_app, length_map. lia.
Qed.

Definition counter (s : string) (a : string) : string :=
  if String.eqb a "reset" then "zero" else if String.eqb a "inc" then "one" else s.

Lemma machine_send_all_fold_witness :
  mstate (msend_all String.eqb counter (msubscribe (machine "zero") 3) ["inc"; "inc"; "reset"]) = "zero" /\
  length (mnotified (msend_all String.eqb counter (msubscribe (machine "zero") 3) ["inc"; "inc"; "reset"])) = 2%nat.
Proof.
  destruct (machine_send_all_fold String.eqb counter (msubscribe (machine "zero") 3) ["inc"; "inc"; "reset"])
    as (H1 & H2 & _).
  - intros x y H. apply String.eqb_eq. exact H.
  - split; [rewrite H1; reflexivity|rewrite H2; reflexivity].
Defined.

(** ** [throttle(ms, effect)], [debounce(ms, effect)] and [t.delay(ms)]

    Each is modelled by the closure state of one call, driven by outside
    events carrying the time [Date.now()] at which they happen.  A source
    [_set(v)] only reaches the subscriber when [v !== current].  The logs
    [th_sets] and [db_sets] record each [_set] call on the result, with its
    time. *)

Record ThrottleState := mkTh {
  th_src : val;
  th_out : val;
  lastExecution : Z;
  th_sets : list (Z * val)
}.

(** [throttled = time(effect.value()); let lastExecution = 0]. *)
Definition throttle_new (v0 : val) : ThrottleState := mkTh v0 v0 0 [].

(** [effect._set(v)] at time [now]:
    [if (now - lastExecution >= ms) { throttled._set(newValue); lastExecution = now; }]. *)
Definition throttle_emit (ms : Z) (s : ThrottleState) (ev : Z * val) : ThrottleState :=
  let '(now, v) := ev in
  if strict_eqb v (th_src s) then s
  else if ms <=? now - lastExecution s then
    mkTh v (js_set (th_out s) v) now (th_sets s ++ [(now, v)])
  else mkTh v (th_out s) (lastExecution s) (th_sets s).

Definition throttle_run (ms : Z) (s : ThrottleState) (evs : list (Z * val)) : ThrottleState :=
  fold_left (throttle_emit ms) evs s.

(** Successive times at least [ms] apart, starting from [prev]. *)
Fixpoint spaced (ms prev : Z) (ts : list Z) : Prop :=
  match ts with
  | [] => True
  | t :: ts' => ms <= t - prev /\ spaced ms t ts'
  end.



Inductive devent : Type :=
| DEmit (t : Z) (v : val)   (* [effect._set(v)] at time [t] *)
| DTick (t : Z).            (* the clock reaches [t] *)





(** The two callbacks [t.delay(ms)] schedules. *)
Inductive dtask : Type :=
| DRead            (* [() => delayed._set(baseEffect.value())] *)
| DVal (v : val).  (* [() => delayed._set(newValue)] *)

Record DelayState := mkDl {
  dl_src : val;
  dl_out : val;
  dl_timers : list (Z * dtask)   (* pending timers, in firing order *)
}.

(** [setTimeout(cb, ms)]: the timer goes after every timer due no later. *)
Fixpoint insert_timer (d : Z) (x : dtask) (ts : list (Z * dtask)) : list (Z * dtask) :=
  match ts with
  | [] => [(d, x)]
  | (d', y) :: ts' => if d' <=? d then (d', y) :: insert_timer d x ts' else (d, x) :: ts
  end.

(** [delayed = time(baseEffect.value()); setTimeout(..., ms)] at time [t0]. *)
Definition delay_new (ms t0 : Z) (v0 : val) : DelayState := mkDl v0 v0 [(t0 + ms, DRead)].

(** Fire, in order, the timers due by time [t]. *)
Fixpoint delay_fire (t : Z) (out : val) (src : val) (ts : list (Z * dtask)) : val * list (Z * dtask) :=
  match ts with
  | (d, x) :: ts' =>
      if d <=? t then
        delay_fire t (match x with DRead => js_set out src | DVal v => js_set out v end) src ts'
      else (out, ts)
  | [] => (out, [])
  end.

Definition delay_advance (t : Z) (s : DelayState) : DelayState :=
  let '(out, ts) := delay_fire t (dl_out s) (dl_src s) (dl_timers s) in mkDl (dl_src s) out ts.

Definition delay_step (ms : Z) (s : DelayState) (e : devent) : DelayState :=
  match e with
  | DEmit t v =>
      let s := delay_advance t s in
      if strict_eqb v (dl_src s) then s
      else mkDl v (dl_out s) (insert_timer (t + ms) (DVal v) (dl_timers s))
  | DTick t => delay_advance t s
  end.

Definition delay_run (ms : Z) (s : DelayState) (es : list devent) : DelayState :=
  fold_left (delay_step ms) es s.

Definition devent_time (e : devent) : Z := match e with DEmit t _ | DTick t => t end.

(** Times that never decrease, from [t]. *)
Fixpoint monotone_from (t : Z) (es : list devent) : Prop :=
  match es with
  | [] => True
  | e :: es' => t <= devent_time e /\ monotone_from (devent_time e) es'
  end.

Lemma js_set_val (cur v : val) : js_set cur v = v.
Proof.
  unfold js_set. destruct (strict_eqb v cur) eqn:E; [|reflexivity].
  symmetry. apply strict_eqb_eq. exact E.
Qed.

Lemma last_default_irrel {X : Type} (a b : X) : forall (l : list X),
  l <> [] -> List.last l a = List.last l b.
Proof.
  induction l as [|x l IH]; intros H; [congruence|].
  destruct l as [|y l]; [reflexivity|]. apply IH. discriminate.
Qed.

Lemma last_cons {X : Type} (a d : X) (l : list X) :
  List.last (a :: l) d = List.last l a.
Proof.
  destruct l as [|y l]; [reflexivity|].
  change (List.last (a :: y :: l) d) with (List.last (y :: l) d).
  apply last_default_irrel. discriminate.
Qed.

Lemma spaced_snoc (ms : Z) : forall (ts : list Z) (p t : Z),
  spaced ms p (ts ++ [t]) <-> spaced ms p ts /\ ms <= t - List.last ts p.
Proof.
  induction ts as [|x ts IH]; intros p t; simpl.
  - tauto.
  - rewrite IH. destruct ts as [|y ts']; [simpl; tauto|].
    rewrite (last_default_irrel p x) by discriminate. tauto.
Qed.

(** [throttle]: the times at which the result is set are at least [ms]
    apart, the first one at least [ms] after time 0 ([lastExecution] starts
    at 0, so an emission before [Date.now() >= ms] is dropped), and the
    result holds the value of the last set, or the initial one. *)
Theorem throttle_sets_spaced (ms : Z) (v0 : val) (evs : list (Z * val)) :
  spaced ms 0 (map fst (th_sets (throttle_run ms (throttle_new v0) evs))) /\
  th_out (throttle_run ms (throttle_new v0) evs) =
    List.last (map snd (th_sets (throttle_run ms (throttle_new v0) evs))) v0.
Proof.
  assert (Hgen : forall evs s,
    spaced ms 0 (map fst (th_sets s)) ->
    lastExecution s = List.last (map fst (th_sets s)) 0 ->
    th_out s = List.last (map snd (th_sets s)) v0 ->
    let s' := throttle_run ms s evs in
    spaced ms 0 (map fst (th_sets s')) /\
    lastExecution s' = List.last (map fst (th_sets s')) 0 /\
    th_out s' = List.last (map snd (th_sets s')) v0).
  { induction evs0 as [|[now v] evs0 IH]; intros s H1 H2 H3; simpl; [tauto|].
    apply IH; unfold throttle_emit;
      destruct (strict_eqb v (th_src s)); try assumption;
      destruct (ms <=? now - lastExecution s) eqn:E; simpl; try assumption.
    - rewrite map_app. simpl. apply spaced_snoc. split; [exact H1|].
      rewrite <- H2. apply Z.leb_le. exact E.
    - rewrite map_app. simpl. rewrite List.last_last. reflexivity.
    - rewrite map_app. simpl. rewrite List.last_last. apply js_set_val. }
  destruct (Hgen evs (throttle_new v0)) as (H1 & _ & H3); simpl; auto.
Qed.




(** The value the result ends with once every pending timer has fired. *)
Fixpoint final_value (out src : val) (ts : list (Z * dtask)) : val :=
  match ts with
  | [] => out
  | (_, x) :: ts' => final_value (match x with DRead => src | DVal v => v end) src ts'
  end.

Lemma delay_fire_final (t : Z) (src : val) : forall ts out out' ts',
  delay_fire t out src ts = (out', ts') ->
  final_value out' src ts' = final_value out src ts /\
  (ts' = [] \/ exists pre, ts = pre ++ ts') /\
  ((forall p, In p ts -> fst p <= t) -> ts' = []).
Proof.
  induction ts as [|[d x] ts IH]; intros out out' ts' H; simpl in H.
  - injection H as <- <-. simpl. split; [reflexivity|split; [left; reflexivity|auto]].
  - destruct (d <=? t) eqn:E.
    + destruct (IH _ _ _ H) as (H1 & H2 & H3). split; [|split].
      * rewrite H1. simpl. destruct x; rewrite js_set_val; reflexivity.
      * destruct H2 as [->|(pre & ->)]; [left; reflexivity|right; exists ((d, x) :: pre); reflexivity].
      * intros Hall. apply H3. intros p Hp. apply Hall. right. exact Hp.
    + injection H as <- <-. split; [reflexivity|split; [right; exists []; reflexivity|]].
      intros Hall. specialize (Hall (d, x) (or_introl eq_refl)). simpl in Hall. apply Z.leb_gt in E. lia.
Qed.

Lemma insert_timer_last (d : Z) (x : dtask) : forall ts,
  (forall p, In p ts -> fst p <= d) -> insert_timer d x ts = ts ++ [(d, x)].
Proof.
  induction ts as [|[d' y] ts IH]; intros H; simpl; [reflexivity|].
  specialize (H (d', y) (or_introl eq_refl)) as Hd. simpl in Hd.
  destruct (d' <=? d) eqn:E; [|apply Z.leb_gt in E; lia].
  rewrite IH; [reflexivity|]. intros p Hp. apply H. right. exact Hp.
Qed.

Lemma final_value_snoc (out src : val) (d : Z) (v : val) : forall ts,
  final_value out src (ts ++ [(d, DVal v)]) = v.
Proof.
  intros ts. revert out. induction ts as [|[d' y] ts IH]; intros out; simpl; [reflexivity|].
  apply IH.
Qed.

Definition delay_inv (ms now : Z) (s : DelayState) : Prop :=
  (forall p, In p (dl_timers s) -> fst p <= now + ms) /\
  final_value (dl_out s) (dl_src s) (dl_timers s) = dl_src s.

Lemma delay_advance_inv (ms now t : Z) (s : DelayState) :
  now <= t -> delay_inv ms now s -> delay_inv ms t (delay_advance t s) /\ dl_src (delay_advance t s) = dl_src s.
Proof.
  intros Ht [Hb Hf]. unfold delay_advance.
  destruct (delay_fire t (dl_out s) (dl_src s) (dl_timers s)) as [out ts] eqn:E.
  destruct (delay_fire_final _ _ _ _ _ _ E) as (H1 & H2 & _). simpl.
  split; [split|reflexivity].
  - intros p Hp. destruct H2 as [->|(pre & Hpre)]; [destruct Hp|].
    assert (In p (dl_timers s)) by (rewrite Hpre; apply in_or_app; right; exact Hp).
    specialize (Hb p H). lia.
  - simpl. rewrite H1. exact Hf.
Qed.

Lemma delay_run_inv (ms : Z) : forall es now s,
  0 <= ms -> monotone_from now es -> delay_inv ms now s ->
  delay_inv ms (List.last (map devent_time es) now) (delay_run ms s es).
Proof.
  induction es as [|e es IH]; intros now s Hms Hmono Hinv; [simpl; exact Hinv|].
  destruct Hmono as (Ht & Hmono).
  cbn [map]. rewrite last_cons.
  change (delay_run ms s (e :: es)) with (delay_run ms (delay_step ms s e) es).
  apply IH; [exact Hms|exact Hmono|].
  destruct e as [t v|t]; simpl in *.
  - destruct (delay_advance_inv ms now t s Ht Hinv) as [[Hb Hf] Hsrc].
    destruct (strict_eqb v (dl_src (delay_advance t s))).
    + split; [exact Hb|exact Hf].
    + split; simpl.
      * rewrite insert_timer_last by (intros p Hp; specialize (Hb p Hp); lia).
        intros p Hp. apply in_app_or in Hp. destruct Hp as [Hp|[<-|[]]]; [apply Hb; exact Hp|simpl; lia].
      * rewrite insert_timer_last by (intros p Hp; specialize (Hb p Hp); lia).
        apply final_value_snoc.
  - apply (delay_advance_inv ms now t s Ht Hinv).
Qed.

(** [t.delay(ms)], called at time [t0]: for any later source changes (at
    non-decreasing times), once [ms] have passed since the last event the
    delayed container holds the source's current value and no timer is
    left. *)
Theorem delay_converges (ms t0 : Z) (v0 : val) (es : list devent) (T : Z) :
  0 <= ms -> monotone_from t0 es -> List.last (map devent_time es) t0 + ms <= T ->
  dl_out (delay_run ms (delay_new ms t0 v0) (es ++ [DTick T])) =
    dl_src (delay_run ms (delay_new ms t0 v0) (es ++ [DTick T])) /\
  dl_timers (delay_run ms (delay_new ms t0 v0) (es ++ [DTick T])) = [].
Proof.
  intros Hms Hmono HT.
  assert (H0 : delay_inv ms t0 (delay_new ms t0 v0)).
  { split; [intros p [<-|[]]; simpl; lia|reflexivity]. }
  pose proof (delay_run_inv ms es t0 _ Hms Hmono H0) as [Hb Hf].
  unfold delay_run. rewrite fold_left_app. simpl.
  fold (delay_run ms (delay_new ms t0 v0) es).
  unfold delay_advance.
  destruct (delay_fire T _ _ _) as [out ts] eqn:E.
  destruct (delay_fire_final _ _ _ _ _ _ E) as (H1 & _ & H3). simpl.
  assert (Hts : ts = []) by (apply H3; intros p Hp; specialize (Hb p Hp); lia).
  subst ts. simpl in H1. split; [rewrite H1; exact Hf|reflexivity].
Qed.

(** [t = time(0)]; [d = t.delay(100)] at time 0; [t._set(1)] at time 50. *)
Lemma delay_converges_witness :
  dl_out (delay_run 100 (delay_new 100 0 (VNum 0)) [DEmit 50 (VNum 1); DTick 100]) = VNum 1 /\
  dl_out (delay_run 100 (delay_new 100 0 (VNum 0)) ([DEmit 50 (VNum 1)] ++ [DTick 150])) = VNum 1.
Proof.
  split; [reflexivity|].
  destruct (delay_converges 100 0 (VNum 0) [DEmit 50 (VNum 1)] 150) as [H _].
  - lia.
  - simpl. lia.
  - simpl. lia.
  - rewrite H. reflexivity.
Defined.

(** ** More of [fetch]: [refetch], and general properties *)

Arguments getItem {D E}.
Arguments setItem {D E}.
Arguments store_fcell {D E}.
Arguments cache_write {D E}.
Arguments fset {D E}.
Arguments invoke {D E}.
Arguments executeFetch {D E}.
Arguments attemptFetch {D E}.
Arguments setTimeout {D E}.
Arguments run_task {D E}.


(** The state [executeFetch] and [attemptFetch] store once [fetcher()]
    settles. *)
Definition settled {D E : Type} (o : fres D E) : AsyncState D E :=
  match o with
  | FOk d => mkAS (Some d) false None
  | FFail e => mkAS None false (Some e)
  end.

Lemma fset_nosubs {D E : Type} (truthy : D -> bool) (stringify : D -> string)
    (f i : nat) (c : fcell D E) (v : AsyncState D E) (w : world D E) :
  fcells w !! i = Some c -> fsubs c = [] ->
  fset truthy stringify (S f) i v w = Some (store_fcell i c v w).
Proof. intros Hc Hs. simpl. rewrite Hc, Hs. reflexivity. Qed.

Lemma store_fcell_lookup {D E : Type} (i j : nat) (c : fcell D E) (v : AsyncState D E) (w : world D E) :
  fcells w !! i = Some c ->
  fcells (store_fcell i c v w) !! j = if decide (i = j) then Some (mkfcell v (fsubs c)) else fcells w !! j.
Proof.
  intros Hc. simpl. destruct (decide (i = j)) as [<-|Hne].
  - apply list_lookup_insert_eq. eapply lookup_lt_Some. exact Hc.
  - apply list_lookup_insert_ne. exact Hne.
Qed.

(** The world after [fetch]: one more container, at the end, holding
    [{loading: true}], and its continuation queued. *)
Lemma fetch_shape {D E : Type} (truthy : D -> bool) (stringify : D -> string)
    (f : nat) (w : world D E) :
  fetch truthy stringify (S f) w =
    Some (length (fcells w),
          mkworld (fcells w ++ [mkfcell loadingState []]) (S (calls w))
                  (micro w ++ [KExec (length (fcells w)) (calls w)]) (timers w) (delays w) (now w)
                  (storage w) ((length (fcells w), loadingState) :: fsets w)).
Proof.
  unfold fetch, executeFetch.
  rewrite (fset_nosubs truthy stringify f (length (fcells w)) (mkfcell loadingState [])).
  - simpl. unfold store_fcell, invoke. simpl.
    rewrite insert_app_r_alt by lia. rewrite Nat.sub_diag. reflexivity.
  - simpl. rewrite lookup_app_r by lia. rewrite Nat.sub_diag. reflexivity.
  - reflexivity.
Qed.

Lemma lookup_last_cell {D E : Type} (cs : list (fcell D E)) (c : fcell D E) :
  (cs ++ [c]) !! length cs = Some c.
Proof. rewrite lookup_app_r by lia. rewrite Nat.sub_diag. reflexivity. Qed.

(** [fetch(fetcher)] on an idle event loop: right after the call the new
    [Fetch] holds [{loading: true}] and the fetcher has been invoked once;
    once the loop has run, it holds [{data, loading: false}] or
    [{error, loading: false}] according to how that invocation settled. *)
Theorem fetch_lifecycle {D E : Type} (truthy : D -> bool) (stringify : D -> string)
    (fetcher : nat -> fres D E) (w : world D E) (fuel fuel' : nat) :
  micro w = [] -> timers w = [] -> (1 <= fuel)%nat -> (2 <= fuel')%nat ->
  exists i w1 w2,
    fetch truthy stringify fuel w = Some (i, w1) /\
    fvalue i w1 = Some loadingState /\ calls w1 = S (calls w) /\
    drain truthy stringify fetcher fuel' w1 = Some w2 /\
    fvalue i w2 = Some (settled (fetcher (calls w))) /\ calls w2 = S (calls w).
Proof.
  intros Hm Ht Hf Hf'.
  destruct fuel as [|f]; [lia|]. destruct fuel' as [|[|g]]; [lia|lia|].
  rewrite fetch_shape. rewrite Hm. simpl app.
  set (i := length (fcells w)).
  set (cs := fcells w ++ [mkfcell loadingState []]).
  assert (Hi : cs !! i = Some (mkfcell loadingState [])) by apply lookup_last_cell.
  assert (Hlen : (i < length cs)%nat) by (eapply lookup_lt_Some; exact Hi).
  set (W0 := mkworld cs (S (calls w)) [] (timers w) (delays w) (now w) (storage w)
                     ((i, loadingState) :: fsets w)).
  assert (Hrun : run_task truthy stringify fetcher (S g) (KExec i (calls w)) W0 =
                 Some (store_fcell i (mkfcell loadingState []) (settled (fetcher (calls w))) W0)).
  { unfold run_task. destruct (fetcher (calls w));
      apply (fset_nosubs truthy stringify g i (mkfcell loadingState [])); first [exact Hi | reflexivity]. }
  eexists i, _, _. split; [reflexivity|]. split.
  { unfold fvalue. simpl. fold cs. rewrite Hi. reflexivity. }
  split; [reflexivity|]. split.
  - cbn [drain micro fcells calls timers delays now storage fsets]. fold W0. rewrite Hrun.
    cbn [mbind option_bind drain store_fcell]. subst W0. cbn [micro timers]. rewrite Ht. reflexivity.
  - split; [|reflexivity]. unfold fvalue. rewrite store_fcell_lookup by exact Hi.
    rewrite decide_True by reflexivity. reflexivity.
Qed.

Lemma fetch_lifecycle_witness :
  exists i w1 w2,
    fetch truthy_Z stringify_Z 1 (world0 0 []) = Some (i, w1) /\
    fvalue i w1 = Some loadingState /\ calls w1 = 1%nat /\
    drain truthy_Z stringify_Z always_7 2 w1 = Some w2 /\
    fvalue i w2 = Some (mkAS (Some 7) false None) /\ calls w2 = 1%nat.
Proof.
  apply (fetch_lifecycle truthy_Z stringify_Z always_7 (world0 0 []) 1 2);
    first [reflexivity | lia].
Defined.









































(** ** Trees of containers derived from a source by pure maps *)

(** An edge [(x, g, y)]: container [y] was made by [x.map(g)] with a pure [g]. *)
Definition edge : Type := (nat * (val -> val) * nat)%type.

Definition edge_dst (e : edge) : nat := let '(_, _, y) := e in y.

(** [desc E d y]: [y] is derived from [d] through the edges [E]. *)
Inductive desc (E : list edge) (d : nat) : nat -> Prop :=
| desc_refl : desc E d d
| desc_step (x : nat) (g : val -> val) (y : nat) :
    In (x, g, y) E -> desc E d x -> desc E d y.

(** The closure [m] subscribed by [map] acts as the pure [g] on [x]'s values. *)
Definition map_edge (m : mfun) (x : nat) (g : val -> val) : Prop :=
  forall st, apply_mfun m (value x st) st = (g (value x st), st).

(** The shape of the tree rooted at [c]: each derived container has one
    parent, made before it; the subscribers of a tree container are outside
    subscribers or the mapping closures of its edges, and each edge's closure
    is subscribed. *)
Record forest (E : list edge) (c : nat) (st : store) : Prop := {
  fo_nodup : NoDup (map edge_dst E);
  fo_order : forall x g y, In (x, g, y) E -> (x < y)%nat /\ (y < length (cells st))%nat;
  fo_root : forall x g y, In (x, g, y) E -> desc E c x;
  fo_c : (c < length (cells st))%nat;
  fo_subs : forall x l, desc E c x -> In l (subs_of st x) ->
      (exists k, l = LUser k) \/
      (exists m g y, l = LMap m y /\ In (x, g, y) E /\ map_edge m x g);
  fo_listen : forall x g y, In (x, g, y) E -> exists j m, subs_of st x !! j = Some (LMap m y)
}.

(** Every edge of [E] holds: the derived value is [g] of its parent's. *)
Definition consistent (E : list edge) (st : store) : Prop :=
  forall x g y, In (x, g, y) E -> value y st = g (value x st).

(** The edges leaving the subtree of [x] hold. *)
Definition below (E : list edge) (x : nat) (st : store) : Prop :=
  forall x' g z, In (x', g, z) E -> desc E x x' -> value z st = g (value x' st).

(** The same, leaving out the edges leaving [x] itself. *)
Definition strictly_below (E : list edge) (x : nat) (st : store) : Prop :=
  forall x' g z, In (x', g, z) E -> desc E x x' -> x' <> x -> value z st = g (value x' st).

Definition same_shape (st st' : store) : Prop :=
  length (cells st') = length (cells st) /\ forall j, subs_of st' j = subs_of st j.

Lemma desc_le (E : list edge) (d y : nat) :
  (forall x g z, In (x, g, z) E -> (x < z)%nat) -> desc E d y -> (d <= y)%nat.
Proof.
  intros Hord H. induction H as [|x g y Hin Hd IH]; [lia|].
  pose proof (Hord _ _ _ Hin). lia.
Qed.

Lemma desc_trans (E : list edge) (a b z : nat) : desc E a b -> desc E b z -> desc E a z.
Proof.
  intros Hab Hbz. induction Hbz as [|x g y Hin Hd IH]; [exact Hab|].
  eapply desc_step; eauto.
Qed.

Lemma desc_inv (E : list edge) (d z : nat) :
  desc E d z -> z = d \/ exists p g, In (p, g, z) E /\ desc E d p.
Proof. intros H. destruct H as [|x g y Hin Hd]; [left; reflexivity|right; eauto]. Qed.

Lemma desc_mono (E E' : list edge) (d z : nat) :
  (forall e, In e E -> In e E') -> desc E d z -> desc E' d z.
Proof.
  intros Hinc H. induction H as [|x g y Hin Hd IH]; [constructor|].
  eapply desc_step; [apply Hinc; exact Hin|exact IH].
Qed.

Lemma edge_unique (E : list edge) (x x' y : nat) (g g' : val -> val) :
  NoDup (map edge_dst E) -> In (x, g, y) E -> In (x', g', y) E -> x = x' /\ g = g'.
Proof.
  induction E as [|e E IH]; intros Hnd H1 H2; [destruct H1|].
  simpl in Hnd. apply NoDup_cons in Hnd as [Hnin Hnd].
  destruct H1 as [H1|H1], H2 as [H2|H2].
  - subst e. injection H2 as -> ->. split; reflexivity.
  - exfalso. apply Hnin. subst e. apply (in_map edge_dst) in H2. apply list_elem_of_In. exact H2.
  - exfalso. apply Hnin. subst e. apply (in_map edge_dst) in H1. apply list_elem_of_In. exact H1.
  - apply IH; assumption.
Qed.

(** Within a tree, a container's parent lies in the subtree of any strict
    ancestor of it. *)
Lemma desc_parent (E : list edge) (y x' z : nat) (h : val -> val) :
  NoDup (map edge_dst E) -> In (x', h, z) E -> desc E y z -> z <> y -> desc E y x'.
Proof.
  intros Hnd Hin Hd Hne. apply desc_inv in Hd as [->|(p & g & Hp & Hdp)]; [congruence|].
  destruct (edge_unique E p x' z g h Hnd Hp Hin) as [<- _]. exact Hdp.
Qed.

Lemma forest_frame (E : list edge) (c : nat) (st st' : store) :
  same_shape st st' -> forest E c st -> forest E c st'.
Proof.
  intros [Hl Hs] [Hnd Hord Hroot Hc Hsubs Hlis]. constructor.
  - exact Hnd.
  - intros x g y Hin. rewrite Hl. apply Hord with g. exact Hin.
  - exact Hroot.
  - rewrite Hl. exact Hc.
  - intros x l Hd Hin. rewrite Hs in Hin. apply Hsubs; assumption.
  - intros x g y Hin. rewrite Hs. apply Hlis with g. exact Hin.
Qed.

Lemma same_shape_refl (st : store) : same_shape st st.
Proof. split; reflexivity. Qed.

Lemma same_shape_trans (st1 st2 st3 : store) :
  same_shape st1 st2 -> same_shape st2 st3 -> same_shape st1 st3.
Proof. intros [H1 H2] [H3 H4]. split; [congruence|intros j; rewrite H4; apply H2]. Qed.

Lemma same_shape_store_cur (st : store) (i : nat) (v : val) :
  same_shape st (store_cur i v st).
Proof. split; [apply length_store_cur|intros j; apply subs_of_store_cur]. Qed.

Lemma same_shape_add_note (st : store) (k : nat) (v : val) :
  same_shape st (add_note k v st).
Proof. split; reflexivity. Qed.

Lemma value_add_note (st : store) (k j : nat) (v : val) :
  value j (add_note k v st) = value j st.
Proof. reflexivity. Qed.

Lemma desc_lt (E : list edge) (c : nat) (st : store) (x : nat) :
  forest E c st -> desc E c x -> (x < length (cells st))%nat.
Proof.
  intros Hf Hd. apply desc_inv in Hd as [->|(p & g & Hp & _)]; [apply (fo_c _ _ _ Hf)|].
  apply (fo_order _ _ _ Hf p g x Hp).
Qed.

Section Tree.

Variables (E : list edge) (c : nat).

Lemma tree_go (f : nat) :
  (forall d v st st', forest E c st -> desc E c d -> below E d st ->
     go f (OSet d v) st = Some st' ->
     same_shape st st' /\ value d st' = v /\ below E d st' /\
     (forall z, value z st' = value z st \/ desc E d z)) /\
  (forall x k st st', forest E c st -> desc E c x -> strictly_below E x st ->
     (forall g y, In (x, g, y) E -> value y st = g (value x st) \/
        exists j m, (k <= j)%nat /\ subs_of st x !! j = Some (LMap m y)) ->
     go f (ONotify x k) st = Some st' ->
     same_shape st st' /\ below E x st' /\
     (forall z, value z st' = value z st \/ (desc E x z /\ z <> x))) /\
  (forall x l st st', forest E c st -> desc E c x -> In l (subs_of st x) ->
     strictly_below E x st ->
     go f (ORun l (value x st)) st = Some st' ->
     same_shape st st' /\
     match l with
     | LMap _ y => exists g, In (x, g, y) E /\ value y st' = g (value x st) /\
                    below E y st' /\ (forall z, value z st' = value z st \/ desc E y z)
     | _ => forall z, value z st' = value z st
     end).
Proof.
  induction f as [|f IH].
  { repeat split; intros;
      match goal with H : go 0 _ _ = Some _ |- _ => discriminate H end. }
  destruct IH as (IHs & IHn & IHr). split; [|split].
  - (* [_set] *)
    intros d v st st' Hf Hd Hb Hgo.
    pose proof (fo_nodup _ _ _ Hf) as Hnd.
    assert (Hord : forall x g z, In (x, g, z) E -> (x < z)%nat)
      by (intros x g z Hin; apply (fo_order _ _ _ Hf x g z Hin)).
    pose proof (desc_lt _ _ _ _ Hf Hd) as Hlt.
    destruct (lookup_lt_is_Some_2 _ _ Hlt) as [cd Hcd].
    simpl in Hgo. rewrite Hcd in Hgo.
    destruct (negb (strict_eqb v (cur cd))) eqn:Hne.
    + set (st1 := store_cur d v st) in Hgo.
      assert (Hf1 : forest E c st1)
        by (apply (forest_frame _ _ st); [apply same_shape_store_cur|exact Hf]).
      destruct (IHn d 0%nat st1 st' Hf1 Hd) as (Hsh & Hbl & Hout).
      * intros x' g z Hin Hdx Hne'.
        pose proof (desc_le _ _ _ Hord Hdx). pose proof (Hord _ _ _ Hin).
        unfold st1. rewrite !value_store_cur_ne by lia. apply Hb; assumption.
      * intros g y Hin. right.
        destruct (fo_listen _ _ _ Hf _ _ _ Hin) as (j & m & Hj). exists j, m.
        split; [lia|]. unfold st1. rewrite subs_of_store_cur. exact Hj.
      * exact Hgo.
      * split; [exact (same_shape_trans _ _ _ (same_shape_store_cur st d v) Hsh)|].
        split; [|split; [exact Hbl|]].
        -- destruct (Hout d) as [H|[_ H]]; [|congruence].
           rewrite H. unfold st1. apply value_store_cur. exact Hlt.
        -- intros z. destruct (Hout z) as [H|[H _]]; [|right; exact H].
           destruct (decide (z = d)) as [->|Hzd]; [right; constructor|left].
           rewrite H. unfold st1. apply value_store_cur_ne. congruence.
    + injection Hgo as <-. split; [apply same_shape_refl|].
      split; [|split; [exact Hb|intros z; left; reflexivity]].
      unfold value. rewrite Hcd. apply negb_false_iff in Hne.
      apply strict_eqb_eq in Hne. congruence.
  - (* [notify] *)
    intros x k st st' Hf Hd Hsb Hpend Hgo.
    pose proof (fo_nodup _ _ _ Hf) as Hnd.
    assert (Hord : forall x g z, In (x, g, z) E -> (x < z)%nat)
      by (intros x0 g z Hin; apply (fo_order _ _ _ Hf x0 g z Hin)).
    simpl in Hgo. destruct (subs_of st x !! k) as [l|] eqn:Hk.
    2: { injection Hgo as <-. split; [apply same_shape_refl|].
         split; [|intros z; left; reflexivity].
         intros x' g z Hin Hdx.
         destruct (decide (x' = x)) as [->|Hne]; [|apply Hsb; assumption].
         destruct (Hpend g z Hin) as [H|(j & m & Hkj & Hj)]; [exact H|].
         exfalso. apply lookup_ge_None in Hk. apply lookup_lt_Some in Hj. lia. }
    destruct (go f (ORun l (value x st)) st) as [st2|] eqn:Hr; [|discriminate].
    assert (Hinl : In l (subs_of st x))
      by (apply list_elem_of_In; eapply list_elem_of_lookup_2; eauto).
    destruct (IHr x l st st2 Hf Hd Hinl Hsb Hr) as (Hsh2 & Hl).
    assert (Hf2 : forest E c st2) by (eapply forest_frame; eauto).
    destruct l as [k'|m y|b y|y].
    + destruct (IHn x (S k) st2 st' Hf2 Hd) as (Hsh & Hbl & Hout).
      * intros x' g z Hin Hdx Hne. rewrite !Hl. apply Hsb; assumption.
      * intros g y Hin. rewrite !Hl.
        destruct (Hpend g y Hin) as [H|(j & m & Hkj & Hj)]; [left; exact H|right].
        exists j, m. split; [|destruct Hsh2 as [_ Hs]; rewrite Hs; exact Hj].
        destruct (decide (j = k)) as [->|]; [congruence|lia].
      * exact Hgo.
      * split; [eapply same_shape_trans; eauto|]. split; [exact Hbl|].
        intros z. destruct (Hout z) as [H|H]; [left; rewrite H; apply Hl|right; exact H].
    + destruct Hl as (g & Hin & Hy & Hbly & Houty).
      assert (Hnx : ~ desc E y x).
      { intros H. pose proof (desc_le _ _ _ Hord H). pose proof (Hord _ _ _ Hin). lia. }
      assert (Hx2 : value x st2 = value x st)
        by (destruct (Houty x) as [H|H]; [exact H|contradiction]).
      destruct (IHn x (S k) st2 st' Hf2 Hd) as (Hsh & Hbl & Hout).
      * intros x' h z Hin' Hdx Hne.
        destruct (Houty z) as [Hz|Hyz].
        -- destruct (Houty x') as [Hx'|Hyx']; [|apply Hbly; assumption].
           rewrite Hz, Hx'. apply Hsb; assumption.
        -- apply Hbly; [exact Hin'|]. eapply desc_parent; [exact Hnd|exact Hin'|exact Hyz|].
           intros ->. destruct (edge_unique _ _ _ _ _ _ Hnd Hin' Hin) as [-> _]. congruence.
      * intros h y' Hin'.
        destruct (decide (y' = y)) as [->|Hne].
        -- left. destruct (edge_unique _ _ _ _ _ _ Hnd Hin' Hin) as [_ ->].
           rewrite Hy, Hx2. reflexivity.
        -- assert (Hy2 : value y' st2 = value y' st).
           { destruct (Houty y') as [H|H]; [exact H|].
             exfalso. apply Hnx. eapply desc_parent; eauto. }
           rewrite Hy2, Hx2.
           destruct (Hpend h y' Hin') as [H|(j & m' & Hkj & Hj)]; [left; exact H|right].
           exists j, m'. split; [|destruct Hsh2 as [_ Hs]; rewrite Hs; exact Hj].
           destruct (decide (j = k)) as [->|]; [rewrite Hk in Hj; congruence|lia].
      * exact Hgo.
      * split; [eapply same_shape_trans; eauto|]. split; [exact Hbl|].
        intros z. destruct (Hout z) as [H|H]; [|right; exact H].
        destruct (Houty z) as [H'|Hyz]; [left; congruence|right].
        split.
        -- eapply desc_trans; [|exact Hyz]. eapply desc_step; [exact Hin|constructor].
        -- intros ->. pose proof (desc_le _ _ _ Hord Hyz). pose proof (Hord _ _ _ Hin). lia.
    + exfalso. destruct (fo_subs _ _ _ Hf x _ Hd Hinl) as [(k'&Hk')|(m&g&y'&Hm&_)]; discriminate.
    + exfalso. destruct (fo_subs _ _ _ Hf x _ Hd Hinl) as [(k'&Hk')|(m&g&y'&Hm&_)]; discriminate.
  - (* a subscriber *)
    intros x l st st' Hf Hd Hinl Hsb Hgo.
    assert (Hord : forall x g z, In (x, g, z) E -> (x < z)%nat)
      by (intros x0 g z Hin; apply (fo_order _ _ _ Hf x0 g z Hin)).
    destruct (fo_subs _ _ _ Hf x l Hd Hinl) as [(k & ->)|(m & g & y & -> & Hin & Hme)].
    + simpl in Hgo. injection Hgo as <-. split; [apply same_shape_add_note|].
      intros z; reflexivity.
    + simpl in Hgo. rewrite Hme in Hgo.
      assert (Hdy : desc E c y) by (eapply desc_step; eauto).
      destruct (IHs y (g (value x st)) st st' Hf Hdy) as (Hsh & Hv & Hbl & Hout).
      * intros x' h z Hin' Hdx. apply Hsb; [exact Hin'| |].
        -- eapply desc_trans; [eapply desc_step; [exact Hin|constructor]|exact Hdx].
        -- intros ->. pose proof (desc_le _ _ _ Hord Hdx). pose proof (Hord _ _ _ Hin). lia.
      * exact Hgo.
      * split; [exact Hsh|]. exists g. auto.
Qed.

End Tree.

Lemma below_consistent (E : list edge) (c : nat) (st : store) :
  consistent E st -> below E c st.
Proof. intros H x g z Hin _. apply H. exact Hin. Qed.

Lemma consistent_below (E : list edge) (c : nat) (st : store) :
  forest E c st -> below E c st -> consistent E st.
Proof. intros Hf H x g z Hin. apply H; [exact Hin|apply (fo_root _ _ _ Hf x g z Hin)]. Qed.

(** [c._set(v)] on the root keeps the tree consistent. *)
Lemma set_tree (E : list edge) (c fuel : nat) (v : val) (st st' : store) :
  forest E c st -> consistent E st -> set_ fuel c v st = Some st' ->
  forest E c st' /\ consistent E st'.
Proof.
  intros Hf Hc Hs.
  destruct (proj1 (tree_go E c fuel) c v st st' Hf (desc_refl _ _) (below_consistent _ _ _ Hc) Hs)
    as (Hsh & _ & Hb & _).
  assert (Hf' : forest E c st') by (eapply forest_frame; eauto).
  split; [exact Hf'|]. apply (consistent_below _ c); assumption.
Qed.

(** An outside subscriber keeps the tree consistent. *)
Lemma subscribe_user_tree (E : list edge) (c i k : nat) (st : store) :
  forest E c st -> consistent E st ->
  forest E c (subscribe i (LUser k) st) /\ consistent E (subscribe i (LUser k) st).
Proof.
  intros [Hnd Hord Hroot Hc Hsubs Hlis] Hcons. split.
  - constructor.
    + exact Hnd.
    + intros x g y Hin. rewrite length_subscribe. apply Hord with g. exact Hin.
    + exact Hroot.
    + rewrite length_subscribe. exact Hc.
    + intros x l Hd Hin. rewrite subs_of_subscribe in Hin.
      destruct (decide (i = x)); [destruct (decide _)|].
      * apply in_app_or in Hin. destruct Hin as [Hin|[<-|[]]]; [apply Hsubs; assumption|].
        left. exists k. reflexivity.
      * apply Hsubs; assumption.
      * apply Hsubs; assumption.
    + intros x g y Hin. destruct (Hlis x g y Hin) as (j & m & Hj). exists j, m.
      rewrite subs_of_subscribe.
      destruct (decide (i = x)); [destruct (decide _)|]; [|exact Hj|exact Hj].
      rewrite lookup_app_l; [exact Hj|]. eapply lookup_lt_Some; eauto.
  - intros x g y Hin. rewrite !value_subscribe. apply Hcons. exact Hin.
Qed.

Lemma run_updates_tree (E : list edge) (c fuel : nat) :
  forall (us : list upd) (st st' : store),
  forest E c st -> consistent E st -> run_updates fuel c us st = Some st' ->
  forest E c st' /\ consistent E st'.
Proof.
  induction us as [|u us IH]; intros st st' Hf Hc Hrun; simpl in Hrun.
  - injection Hrun as <-. split; assumption.
  - destruct u as [v|i k].
    + destruct (set_ fuel c v st) as [st1|] eqn:Hs; [|discriminate].
      destruct (set_tree _ _ _ _ _ _ Hf Hc Hs) as [Hf1 Hc1]. eapply IH; eauto.
    + destruct (subscribe_user_tree E c i k st Hf Hc) as [Hf1 Hc1]. eapply IH; eauto.
Qed.

(** A container made by [map] can only be reached through its own edge. *)
Lemma desc_snoc (E : list edge) (c x : nat) (g : val -> val) (st : store) (z : nat) :
  forest E c st -> desc (E ++ [(x, g, length (cells st))]) c z ->
  z = length (cells st) \/ desc E c z.
Proof.
  intros Hf H. induction H as [|p h y Hin Hd IH]; [right; constructor|].
  apply in_app_or in Hin. destruct Hin as [Hin|[Heq|[]]].
  - right. destruct IH as [->|IH].
    + exfalso. destruct (fo_order _ _ _ Hf _ _ _ Hin). lia.
    + eapply desc_step; eauto.
  - injection Heq as -> -> ->. left. reflexivity.
Qed.

(** [x.map(m)], with [m] acting as a pure [g], adds the edge [(x, g, d)]. *)
Lemma map_tree (E : list edge) (c x : nat) (m : mfun) (g : val -> val) (st st' : store) (d : nat) :
  forest E c st -> consistent E st -> desc E c x -> map_edge m x g ->
  map_ x m st = (d, st') ->
  forest (E ++ [(x, g, d)]) c st' /\ consistent (E ++ [(x, g, d)]) st'.
Proof.
  intros Hf Hcons Hd Hme Hmap.
  pose proof (desc_lt _ _ _ _ Hf Hd) as Hx.
  unfold map_ in Hmap. rewrite Hme in Hmap.
  remember (snd (signal (g (value x st)) st)) as st1 eqn:Hst1.
  assert (Hsig : signal (g (value x st)) st = (length (cells st), st1)) by (subst; reflexivity).
  rewrite Hsig in Hmap. injection Hmap as <- <-.
  assert (Hv1 : forall j, value j st1 =
            if decide (j = length (cells st)) then g (value x st) else value j st)
    by (intros j; subst; apply value_signal).
  assert (Hs1 : forall j, subs_of st1 j = subs_of st j)
    by (intros j; subst; apply subs_of_signal).
  assert (Hl1 : length (cells st1) = S (length (cells st))) by (subst; apply length_signal).
  destruct Hf as [Hnd Hord Hroot Hc Hsubs Hlis] eqn:Hfeq.
  assert (HE : forall e, In e E -> In e (E ++ [(x, g, length (cells st))]))
    by (intros e He; apply in_or_app; left; exact He).
  assert (Hnew : In (x, g, length (cells st)) (E ++ [(x, g, length (cells st))]))
    by (apply in_or_app; right; left; reflexivity).
  split.
  - constructor.
    + rewrite map_app. apply NoDup_app. split; [exact Hnd|split; [|apply NoDup_singleton]].
      intros y Hy Hy'. apply list_elem_of_singleton in Hy'. subst y.
      apply list_elem_of_In in Hy. apply in_map_iff in Hy.
      destruct Hy as ([[p h] y] & Hy & Hin). simpl in Hy. subst y.
      destruct (Hord _ _ _ Hin). lia.
    + intros p h y Hin. rewrite length_subscribe, Hl1.
      apply in_app_or in Hin. destruct Hin as [Hin|[Heq|[]]].
      * destruct (Hord _ _ _ Hin). lia.
      * injection Heq as <- <- <-. lia.
    + intros p h y Hin. apply in_app_or in Hin. destruct Hin as [Hin|[Heq|[]]].
      * eapply desc_mono; [exact HE|]. eapply Hroot; eauto.
      * injection Heq as <- <- <-. eapply desc_mono; [exact HE|exact Hd].
    + rewrite length_subscribe, Hl1. lia.
    + intros z l Hdz Hin. destruct (desc_snoc _ _ _ _ _ _ Hf Hdz) as [->|Hdz'].
      * exfalso. rewrite subs_of_subscribe in Hin.
        destruct (decide (x = length (cells st))); [lia|].
        rewrite Hs1 in Hin. unfold subs_of in Hin. rewrite lookup_ge_None_2 in Hin by lia.
        destruct Hin.
      * rewrite subs_of_subscribe in Hin. rewrite Hs1 in Hin.
        destruct (decide (x = z)) as [<-|Hne]; [destruct (decide _) as [_|Hn]; [|lia]|].
        -- apply in_app_or in Hin. destruct Hin as [Hin|[<-|[]]].
           ++ destruct (Hsubs x l Hdz' Hin) as [Hu|(m' & h & y & -> & Hin' & Hm')];
                [left; exact Hu|right].
              exists m', h, y. split; [reflexivity|split; [apply HE; exact Hin'|exact Hm']].
           ++ right. exists m, g, (length (cells st)). split; [reflexivity|split; [exact Hnew|exact Hme]].
        -- destruct (Hsubs z l Hdz' Hin) as [Hu|(m' & h & y & -> & Hin' & Hm')];
             [left; exact Hu|right].
           exists m', h, y. split; [reflexivity|split; [apply HE; exact Hin'|exact Hm']].
    + intros p h y Hin. rewrite subs_of_subscribe.
      apply in_app_or in Hin. destruct Hin as [Hin|[Heq|[]]].
      * destruct (Hlis p h y Hin) as (j & m' & Hj). exists j, m'.
        destruct (decide (x = p)); [destruct (decide _); [|lia]|]; rewrite Hs1; [|exact Hj].
        rewrite lookup_app_l; [exact Hj|]. eapply lookup_lt_Some; eauto.
      * injection Heq as <- <- <-. exists (length (subs_of st x)), m.
        destruct (decide (x = x)); [|congruence]. destruct (decide _); [|lia].
        rewrite Hs1. rewrite lookup_app_r by lia. rewrite Nat.sub_diag. reflexivity.
  - intros p h y Hin. rewrite !value_subscribe, !Hv1.
    apply in_app_or in Hin. destruct Hin as [Hin|[Heq|[]]].
    + destruct (Hord _ _ _ Hin).
      destruct (decide (y = _)); [lia|]. destruct (decide (p = _)); [lia|].
      apply Hcons. exact Hin.
    + injection Heq as <- <- <-.
      destruct (decide (x = _)); [lia|]. destruct (decide _); [reflexivity|congruence].
Qed.

Lemma fresh_signal_tree (v : val) (st st1 : store) (c : nat) :
  signal v st = (c, st1) -> forest [] c st1 /\ consistent [] st1.
Proof.
  intros H. injection H as <- <-. split; [constructor|intros x g y []].
  - constructor.
  - intros x g y [].
  - intros x g y [].
  - unfold signal. simpl. rewrite length_app. simpl. lia.
  - intros x l Hd Hin. apply desc_inv in Hd as [->|(p & g & [] & _)].
    unfold subs_of, signal in Hin. simpl in Hin.
    rewrite lookup_app_r in Hin by lia. rewrite Nat.sub_diag in Hin. destruct Hin.
  - intros x g y [].
Qed.

Lemma map_edge_MFun (x : nat) (g : val -> val) : map_edge (MFun g) x g.
Proof. intros st. reflexivity. Qed.

(** [signal.ts] states the composition law [map(f ∘ g) ≡ map(f) ∘ map(g)]:
    for a fresh container [c], [d1 = c.map(g)], [d2 = d1.map(f)] and
    [d3 = c.map(x => f(g(x)))] with pure [f] and [g], after any sequence of
    outside updates ([c._set] calls and outside subscriptions) [d1] holds
    [g] of [c]'s value, [d2] holds [f] of [d1]'s, and [d3] holds the same
    value as [d2]. *)
Theorem map_composition_value (st0 st1 st2 st3 st4 st' : store) (init : val)
    (c d1 d2 d3 : nat) (f g : val -> val) (us : list upd) (fuel : nat) :
  signal init st0 = (c, st1) ->
  map_ c (MFun g) st1 = (d1, st2) ->
  map_ d1 (MFun f) st2 = (d2, st3) ->
  map_ c (MFun (fun x => f (g x))) st3 = (d3, st4) ->
  run_updates fuel c us st4 = Some st' ->
  value d1 st' = g (value c st') /\ value d2 st' = f (value d1 st') /\
  value d3 st' = value d2 st'.
Proof.
  intros Hs H1 H2 H3 Hrun.
  destruct (fresh_signal_tree _ _ _ _ Hs) as [Hf0 Hc0].
  destruct (map_tree _ _ _ _ _ _ _ _ Hf0 Hc0 (desc_refl _ _) (map_edge_MFun c g) H1)
    as [Hf1 Hc1].
  assert (Hd1 : desc ([] ++ [(c, g, d1)]) c d1)
    by (eapply desc_step; [left; reflexivity|constructor]).
  destruct (map_tree _ _ _ _ _ _ _ _ Hf1 Hc1 Hd1 (map_edge_MFun d1 f) H2) as [Hf2 Hc2].
  destruct (map_tree _ _ _ _ _ _ _ _ Hf2 Hc2 (desc_refl _ _)
              (map_edge_MFun c (fun x => f (g x))) H3) as [Hf3 Hc3].
  destruct (run_updates_tree _ _ _ _ _ _ Hf3 Hc3 Hrun) as [_ Hc].
  assert (E1 : value d1 st' = g (value c st')) by (apply Hc; simpl; tauto).
  assert (E2 : value d2 st' = f (value d1 st')) by (apply Hc; simpl; tauto).
  assert (E3 : value d3 st' = f (g (value c st'))).
  { refine (Hc c (fun x => f (g x)) d3 _). simpl. tauto. }
  split; [exact E1|split; [exact E2|]]. rewrite E3, E2, E1. reflexivity.
Qed.

Definition incr (v : val) : val := match v with VNum n => VNum (n + 1) | _ => v end.
Definition double (v : val) : val := match v with VNum n => VNum (2 * n) | _ => v end.

Definition comp_store1 : store := snd (signal (VNum 1) empty_store).
Definition comp_store2 : store := snd (map_ 0 (MFun incr) comp_store1).
Definition comp_store3 : store := snd (map_ 1 (MFun double) comp_store2).
Definition comp_store4 : store := snd (map_ 0 (MFun (fun x => double (incr x))) comp_store3).
Definition comp_updates : list upd := [USet (VNum 5); USub 2 0; USet (VNum 5); USet (VNum 8)].

Lemma map_composition_value_witness :
  match run_updates 30 0 comp_updates comp_store4 with
  | Some st' => (value 1 st' = incr (value 0 st') /\ value 2 st' = double (value 1 st') /\
                 value 3 st' = value 2 st') /\ value 3 st' = VNum 18
  | None => False
  end.
Proof.
  destruct (run_updates 30 0 comp_updates comp_store4) as [st'|] eqn:E.
  - split.
    + apply (map_composition_value empty_store comp_store1 comp_store2 comp_store3 comp_store4
               st' (VNum 1) 0 1 2 3 double incr comp_updates 30);
        [reflexivity|reflexivity|reflexivity|reflexivity|exact E].
    + vm_compute in E. injection E as <-. reflexivity.
  - vm_compute in E. discriminate.
Defined.

(** ** [interval(ms, value)] and [t.interval(ms)]: the subscriber counter

    The state of the custom [subscribe]: [subscriberCount], the variable
    [intervalId], the timers created by [setInterval] and not yet passed to
    [clearInterval] (by id), and the next timer id. *)
Record IntervalState := mkIv {
  subscriberCount : Z;
  intervalId : option nat;
  live_intervals : list nat;
  next_timer : nat
}.

Definition interval_new : IntervalState := mkIv 0 None [] 0.

Definition clearInterval (id : nat) (l : list nat) : list nat :=
  List.filter (fun j => negb (Nat.eqb j id)) l.

(** [subscriberCount++; if (subscriberCount === 1) { intervalId = setInterval(...) }]. *)
Definition interval_subscribe (s : IntervalState) : IntervalState :=
  let n := subscriberCount s + 1 in
  if Z.eqb n 1 then mkIv n (Some (next_timer s)) (next_timer s :: live_intervals s) (S (next_timer s))
  else mkIv n (intervalId s) (live_intervals s) (next_timer s).

(** The returned closure:
    [subscriberCount--; if (subscriberCount === 0 && intervalId) { clearInterval(intervalId) }]. *)
Definition interval_unsubscribe (s : IntervalState) : IntervalState :=
  let n := subscriberCount s - 1 in
  match intervalId s with
  | Some id =>
    if Z.eqb n 0 then mkIv n (Some id) (clearInterval id (live_intervals s)) (next_timer s)
    else mkIv n (Some id) (live_intervals s) (next_timer s)
  | None => mkIv n None (live_intervals s) (next_timer s)
  end.

(** A call of [subscribe], or a call of one of the closures it returned
    (any closure, any number of times). *)
Inductive ievent : Type :=
| ISubscribe
| IUnsubscribe.

Definition interval_step (s : IntervalState) (e : ievent) : IntervalState :=
  match e with
  | ISubscribe => interval_subscribe s
  | IUnsubscribe => interval_unsubscribe s
  end.

Definition interval_run (s : IntervalState) (es : list ievent) : IntervalState :=
  fold_left interval_step es s.

Definition count_ev (e : ievent) (es : list ievent) : Z :=
  Z.of_nat (length (List.filter (fun e' => match e, e' with
                                          | ISubscribe, ISubscribe | IUnsubscribe, IUnsubscribe => true
                                          | _, _ => false end) es)).

Definition interval_inv (s : IntervalState) : Prop :=
  (1 <= subscriberCount s /\ exists id, intervalId s = Some id /\ live_intervals s = [id]) \/
  (subscriberCount s <= 0 /\ live_intervals s = []).

Lemma interval_step_inv (s : IntervalState) (e : ievent) :
  interval_inv s -> interval_inv (interval_step s e).
Proof.
  intros [(Hc & id & Hid & Hl)|(Hc & Hl)]; destruct e; simpl.
  - unfold interval_subscribe. destruct (Z.eqb_spec (subscriberCount s + 1) 1); [lia|].
    left. simpl. split; [lia|]. exists id. auto.
  - unfold interval_unsubscribe. rewrite Hid. destruct (Z.eqb_spec (subscriberCount s - 1) 0).
    + right. simpl. split; [lia|]. rewrite Hl. unfold clearInterval. simpl.
      rewrite Nat.eqb_refl. reflexivity.
    + left. simpl. split; [lia|]. exists id. auto.
  - unfold interval_subscribe. destruct (Z.eqb_spec (subscriberCount s + 1) 1).
    + left. simpl. split; [lia|]. exists (next_timer s). rewrite Hl. auto.
    + right. simpl. split; [lia|exact Hl].
  - unfold interval_unsubscribe. destruct (intervalId s) as [id|].
    + destruct (Z.eqb_spec (subscriberCount s - 1) 0); [lia|]. right. simpl. split; [lia|exact Hl].
    + right. simpl. split; [lia|exact Hl].
Qed.

Lemma interval_run_gen (es : list ievent) : forall s,
  interval_inv s ->
  interval_inv (interval_run s es) /\
  subscriberCount (interval_run s es) =
    subscriberCount s + count_ev ISubscribe es - count_ev IUnsubscribe es.
Proof.
  induction es as [|e es IH]; intros s Hs.
  - split; [exact Hs|]. unfold count_ev. simpl. lia.
  - unfold interval_run. simpl. fold (interval_run (interval_step s e) es).
    destruct (IH (interval_step s e) (interval_step_inv s e Hs)) as [H1 H2].
    split; [exact H1|]. rewrite H2. unfold count_ev. destruct e; simpl.
    + unfold interval_subscribe. destruct (Z.eqb _ _); simpl; lia.
    + unfold interval_unsubscribe. destruct (intervalId s); [destruct (Z.eqb _ _)|]; simpl; lia.
Qed.

(** [interval]: after any sequence of [subscribe] calls and calls of the
    closures they return (a closure may be called more than once), the
    counter is the number of [subscribe] calls minus the number of
    unsubscribe calls, and a timer is running exactly when the counter is at
    least 1; there is then exactly one, the one [intervalId] names. So an
    extra unsubscribe call leaves the counter below 0, and the next
    subscriber then starts no timer. *)
Theorem interval_timer_iff_count (es : list ievent) :
  let s := interval_run interval_new es in
  subscriberCount s = count_ev ISubscribe es - count_ev IUnsubscribe es /\
  ((1 <= subscriberCount s /\ exists id, intervalId s = Some id /\ live_intervals s = [id]) \/
   (subscriberCount s <= 0 /\ live_intervals s = [])).
Proof.
  destruct (interval_run_gen es interval_new) as [H1 H2].
  - right. simpl. split; [lia|reflexivity].
  - simpl. split; [rewrite H2; simpl; lia|exact H1].
Qed.

(** ** [compose(...plugins)] and [transformPlugin(f)]

    A plugin maps a container to a container. *)
Definition Plugin : Type := nat -> store -> nat * store.

(** [(signal) => signal.map(transform)]. *)
Definition transformPlugin (transform : val -> val) : Plugin :=
  fun s st => map_ s (MFun transform) st.

(** [(signal) => plugins.reduce((acc, plugin) => plugin(acc), signal)]. *)
Definition compose (plugins : list Plugin) : Plugin :=
  fun s st => fold_left (fun (a : nat * store) (plugin : Plugin) =>
                           let '(acc, st1) := a in plugin acc st1) plugins (s, st).

Lemma compose_transforms (gs : list (val -> val)) : forall E c x st d st',
  forest E c st -> consistent E st -> desc E c x ->
  compose (map transformPlugin gs) x st = (d, st') ->
  exists E', (forall e, In e E -> In e E') /\ forest E' c st' /\ consistent E' st' /\
    forall s, consistent E' s -> value d s = fold_left (fun v g => g v) gs (value x s).
Proof.
  induction gs as [|g gs IH]; intros E c x st d st' Hf Hc Hd Hcomp.
  - simpl in Hcomp. injection Hcomp as <- <-. exists E. auto.
  - unfold compose in Hcomp. simpl in Hcomp.
    change (transformPlugin g x st) with (map_ x (MFun g) st) in Hcomp.
    destruct (map_ x (MFun g) st) as [y st1] eqn:Hm.
    change (compose (map transformPlugin gs) y st1 = (d, st')) in Hcomp.
    destruct (map_tree _ _ _ _ _ _ _ _ Hf Hc Hd (map_edge_MFun x g) Hm) as [Hf1 Hc1].
    assert (Hin : In (x, g, y) (E ++ [(x, g, y)])) by (apply in_or_app; right; left; reflexivity).
    assert (Hdy : desc (E ++ [(x, g, y)]) c y).
    { eapply desc_step; [exact Hin|]. eapply desc_mono; [|exact Hd].
      intros e He. apply in_or_app. left. exact He. }
    destruct (IH _ _ _ _ _ _ Hf1 Hc1 Hdy Hcomp) as (E' & Hinc & Hf' & Hc' & Hv).
    exists E'. split; [intros e He; apply Hinc; apply in_or_app; left; exact He|].
    split; [exact Hf'|]. split; [exact Hc'|].
    intros s Hs. rewrite (Hv s Hs). simpl. f_equal. apply Hs. apply Hinc. exact Hin.
Qed.

(** [compose(transformPlugin(g1), ..., transformPlugin(gn))] applied to a
    fresh container [c]: after any sequence of outside updates ([c._set]
    calls and outside subscriptions) the resulting container holds
    [gn(...(g1(c.value())))]. *)
Theorem compose_transformPlugin_value (st0 st1 st2 st' : store) (init : val) (c d : nat)
    (gs : list (val -> val)) (us : list upd) (fuel : nat) :
  signal init st0 = (c, st1) ->
  compose (map transformPlugin gs) c st1 = (d, st2) ->
  run_updates fuel c us st2 = Some st' ->
  value d st' = fold_left (fun v g => g v) gs (value c st').
Proof.
  intros Hs Hcomp Hrun.
  destruct (fresh_signal_tree _ _ _ _ Hs) as [Hf0 Hc0].
  destruct (compose_transforms gs _ _ _ _ _ _ Hf0 Hc0 (desc_refl _ _) Hcomp)
    as (E' & _ & Hf & Hc & Hv).
  destruct (run_updates_tree _ _ _ _ _ _ Hf Hc Hrun) as [_ Hc'].
  apply Hv. exact Hc'.
Qed.

Definition plug_store1 : store := snd (signal (VNum 1) empty_store).
Definition plug_store2 : store := snd (compose (map transformPlugin [incr; double; incr]) 0%nat plug_store1).

Lemma compose_transformPlugin_value_witness :
  match run_updates 30 0 comp_updates plug_store2 with
  | Some st' => value 3 st' = fold_left (fun v g => g v) [incr; double; incr] (value 0 st') /\
                value 3 st' = VNum 19
  | None => False
  end.
Proof.
  destruct (run_updates 30 0 comp_updates plug_store2) as [st'|] eqn:E.
  - split.
    + apply (compose_transformPlugin_value empty_store plug_store1 plug_store2 st' (VNum 1) 0 3
               [incr; double; incr] comp_updates 30); [reflexivity|reflexivity|exact E].
    + vm_compute in E. injection E as <-. reflexivity.
  - vm_compute in E. discriminate.
Defined.

(** ** [persistPlugin(key)]

    [localStorage] is an association list (newest first); the subscriber
    registered by the plugin is the outside subscriber [k], whose calls (each
    a [localStorage.setItem] of the value) are logged in [notes]. A
    [JSON.parse] that throws is [None]; the [catch] then falls back to the
    second branch. *)
Definition storage_getItem (key : string) (ls : list (string * string)) : option string :=
  snd <$> List.find (fun p => String.eqb (fst p) key) ls.

Definition persistPlugin (json_parse : string -> option val) (k : nat) (key : string)
    (ls : list (string * string)) (s : nat) (st : store) : nat * store :=
  let fallback := (s, subscribe s (LUser k) st) in
  match storage_getItem ("persist_" ++ key) ls with
  | Some stored =>
    if String.eqb stored "" then fallback
    else match json_parse stored with
         | Some parsedValue =>
           let '(persistedSignal, st1) := map_ s (MFun (fun _ => parsedValue)) st in
           (persistedSignal, subscribe persistedSignal (LUser k) st1)
         | None => fallback
         end
  | None => fallback
  end.

(** [persistPlugin(key)] applied to a fresh container [c] when
    [localStorage] holds a non-empty entry [persist_key] that parses to [v]:
    the returned container holds [v] after any sequence of outside updates
    of [c] ([c._set] calls and outside subscriptions); the values set on [c]
    never reach it. *)
Theorem persistPlugin_stored_ignores_source (json_parse : string -> option val) (k : nat)
    (key stored : string) (ls : list (string * string)) (v init : val)
    (st0 st1 st2 st' : store) (c d : nat) (us : list upd) (fuel : nat) :
  storage_getItem ("persist_" ++ key) ls = Some stored -> stored <> "" ->
  json_parse stored = Some v ->
  signal init st0 = (c, st1) ->
  persistPlugin json_parse k key ls c st1 = (d, st2) ->
  run_updates fuel c us st2 = Some st' ->
  value d st' = v.
Proof.
  intros Hget Hne Hparse Hs Hp Hrun.
  unfold persistPlugin in Hp. rewrite Hget in Hp.
  apply String.eqb_neq in Hne. rewrite Hne, Hparse in Hp.
  destruct (map_ c (MFun (fun _ => v)) st1) as [d1 st3] eqn:Hm.
  injection Hp as <- <-.
  destruct (fresh_signal_tree _ _ _ _ Hs) as [Hf0 Hc0].
  destruct (map_tree _ _ _ _ _ _ _ _ Hf0 Hc0 (desc_refl _ _) (map_edge_MFun c (fun _ => v)) Hm)
    as [Hf1 Hc1].
  destruct (subscribe_user_tree _ _ d1 k _ Hf1 Hc1) as [Hf2 Hc2].
  destruct (run_updates_tree _ _ _ _ _ _ Hf2 Hc2 Hrun) as [_ Hc].
  exact (Hc c (fun _ => v) d1 ltac:(simpl; tauto)).
Qed.

Definition persist_parse (s : string) : option val :=
  if String.eqb s "42" then Some (VNum 42) else None.

Definition persist_ls : list (string * string) := [("persist_count", "42")].

Lemma persistPlugin_stored_ignores_source_witness :
  match run_updates 30 0 [USet (VNum 5); USub 1 3; USet (VNum 6)]
          (snd (persistPlugin persist_parse 0 "count" persist_ls 0 plug_store1)) with
  | Some st' => value 1 st' = VNum 42 /\ value 0 st' = VNum 6
  | None => False
  end.
Proof.
  destruct (run_updates 30 0 _ _) as [st'|] eqn:E.
  - split.
    + apply (persistPlugin_stored_ignores_source persist_parse 0 "count" "42" persist_ls
               (VNum 42) (VNum 1) empty_store plug_store1
               (snd (persistPlugin persist_parse 0 "count" persist_ls 0 plug_store1)) st' 0 1
               [USet (VNum 5); USub 1 3; USet (VNum 6)] 30);
        [reflexivity|discriminate|reflexivity|reflexivity|reflexivity|exact E].
    + vm_compute in E. injection E as <-. reflexivity.
  - vm_compute in E. discriminate.
Defined.
